(** * KnowledgeScout: the question-answering pipeline of [src/app.py]

    A shallow embedding of the route [ask_question] (lines 182-248 of
    [src/app.py]) and the properties of its retrieval pipeline:
    segmentation of the uploaded text into sentences, ranking of the
    sentences by their similarity to the question, the confidence
    threshold, and the synthesis of the answer string.

    Python strings are modelled as lists of characters, a character being
    one of the 256 code points of Latin-1.  The two library stages of the
    pipeline, scikit-learn's tf-idf vectorizer with its cosine similarity
    and numpy's [argsort], are not part of the repository: they are taken
    as the fields of an interface ([Sklearn], [Numpy]) that records the
    part of their documented behaviour the pipeline relies on.

    The rest of the application (accounts, sessions, uploads and text
    extraction) is embedded as a function from the state, the session and
    a request to an outcome, with werkzeug and the file formats as
    interfaces of the same kind. *)

From Stdlib Require Import Ascii QArith Lqa.
From Stdlib Require String.
From stdpp Require Import list gmap strings sorting pretty.

Local Open Scope nat_scope.
Local Open Scope list_scope.

(** ** Python strings *)

Module Py.

Abbreviation str := (list ascii).

(** A string literal. *)
Definition lit (s : string) : str := String.list_ascii_of_string s.

Definition LF : ascii := "010"%char.
Definition CR : ascii := "013"%char.
Definition SP : ascii := " "%char.

(** [str.isspace] on one character, which is also the class [\s] of [re]
    on [str] patterns: tab, newline, vertical tab, form feed, carriage
    return, the four separators 0x1C-0x1F, the space, NEL (0x85) and the
    no-break space (0xA0). *)
Definition isspace (c : ascii) : bool :=
  let n := nat_of_ascii c in
  ((9 <=? n) && (n <=? 13)) || ((28 <=? n) && (n <=? 32))
  || (n =? 133) || (n =? 160).

Fixpoint dropwhile (p : ascii -> bool) (s : str) : str :=
  match s with
  | [] => []
  | c :: t => if p c then dropwhile p t else s
  end.

Definition lstrip (s : str) : str := dropwhile isspace s.
Definition rstrip (s : str) : str := reverse (dropwhile isspace (reverse s)).

(** [s.strip()] *)
Definition strip (s : str) : str := rstrip (lstrip s).

(** [c.lower()] on Latin-1: A-Z, and the accented capitals 0xC0-0xDE
    except the multiplication sign 0xD7. *)
Definition lower_char (c : ascii) : ascii :=
  let n := nat_of_ascii c in
  if ((65 <=? n) && (n <=? 90))
     || ((192 <=? n) && (n <=? 222) && negb (n =? 215))
  then ascii_of_nat (n + 32) else c.

(** [s.lower()] *)
Definition lower (s : str) : str := lower_char <$> s.

(** [s.replace("\r\n", "\n")]: the occurrences are replaced from left to
    right and do not overlap. *)
Fixpoint replace_crlf (s : str) : str :=
  match s with
  | [] => []
  | c :: t =>
      match t with
      | d :: t' =>
          if bool_decide (c = CR) && bool_decide (d = LF)
          then LF :: replace_crlf t'
          else c :: replace_crlf t
      | [] => [c]
      end
  end.

(** [s.replace("\r", "\n")] *)
Definition replace_cr (s : str) : str :=
  (fun c => if bool_decide (c = CR) then LF else c) <$> s.

(** [sep.join(l)] *)
Fixpoint join (sep : str) (l : list str) : str :=
  match l with
  | [] => []
  | [x] => x
  | x :: t => x ++ sep ++ join sep t
  end.

End Py.

Import Py.

(** ** The two regular expressions of the segmenter *)

Module Re.

(** The character class [[\.!?]] of the look-behind. *)
Definition is_terminal (c : ascii) : bool :=
  bool_decide (c = "."%char) || bool_decide (c = "!"%char)
  || bool_decide (c = "?"%char).

Definition is_newline (c : ascii) : bool := bool_decide (c = LF).

(** Length of the longest prefix of [s] whose characters satisfy [p]:
    what a greedy [c+] consumes when nothing follows it in the pattern
    (0 when it does not match). *)
Fixpoint span_len (p : ascii -> bool) (s : str) : nat :=
  match s with
  | c :: t => if p c then S (span_len p t) else 0
  | [] => 0
  end.

(** First alternative, [(?<=[\.!?])\s+], tried at a position whose
    preceding character is [prev] ([None] at the start of the text). *)
Definition alt_terminal_spaces (prev : option ascii) (s : str) : nat :=
  match prev with
  | Some b => if is_terminal b then span_len isspace s else 0
  | None => 0
  end.

(** Second alternative, [\n+]. *)
Definition alt_newlines (s : str) : nat := span_len is_newline s.

(** Length of the match of [(?<=[\.!?])\s+|\n+] that starts at the head of
    [s], 0 when there is none (neither alternative matches the empty
    string).  The alternatives are tried in order. *)
Definition match_len (prev : option ascii) (s : str) : nat :=
  match alt_terminal_spaces prev s with
  | 0 => alt_newlines s
  | n => n
  end.

(** [re.split] with that pattern: the text is scanned from left to right;
    at a position where the pattern matches, the piece collected so far
    ([cur], reversed) is emitted and the characters of the match are
    skipped ([skip] counts those left to skip); elsewhere the character
    joins the current piece.  The search resumes where a match ends. *)
Fixpoint split_from (skip : nat) (prev : option ascii) (cur : str) (s : str)
  : list str :=
  match s with
  | [] => [reverse cur]
  | c :: t =>
      match skip with
      | S k => split_from k (Some c) cur t
      | 0 =>
          match match_len prev s with
          | 0 => split_from 0 (Some c) (c :: cur) t
          | S k => reverse cur :: split_from k (Some c) [] t
          end
      end
  end.

(** [re.split(r'(?<=[\.!?])\s+|\n+', s)] *)
Definition split (s : str) : list str := split_from 0 None [] s.

(** [re.sub('\s+', ' ', s)]: every maximal run of white space becomes one
    space ([in_run] tells that the previous character was white space). *)
Fixpoint sub_from (in_run : bool) (s : str) : str :=
  match s with
  | [] => []
  | c :: t =>
      if isspace c
      then (if in_run then sub_from true t else SP :: sub_from true t)
      else c :: sub_from false t
  end.

Definition sub_spaces (s : str) : str := sub_from false s.

End Re.

(** ** The segmenter (lines 194-200) *)

(** [raw = doc_text.replace("\r\n", "\n").replace("\r", "\n")] *)
Definition normalize_newlines (doc_text : str) : str :=
  replace_cr (replace_crlf doc_text).

(** The condition [p and p.strip()] of the comprehension. *)
Definition kept (p : str) : Prop := p <> [] /\ strip p <> [].

#[global] Instance kept_dec p : Decision (kept p).
Proof. unfold kept. apply _. Defined.

(** [[re.sub('\s+', ' ', p).strip() for p in parts if p and p.strip()]] *)
Definition split_sentences (raw : str) : list str :=
  (fun p => strip (Re.sub_spaces p)) <$> filter kept (Re.split raw).

(** [sentences], after the fallback of lines 199-200. *)
Definition segment (raw : str) : list str :=
  match split_sentences raw with
  | [] => [take 2000 raw]
  | sentences => sentences
  end.

(** ** Exceptions

    The body of the [try] statement (lines 202-245) either produces a value
    or raises an exception, of which the handler only looks at [str(e)]. *)

Inductive result (A : Type) : Type :=
| Ok (a : A)
| Raise (msg : str).

Arguments Ok {A} a.
Arguments Raise {A} msg.

#[global] Instance result_bind : MBind result := fun A B k m =>
  match m with
  | Ok a => k a
  | Raise msg => Raise msg
  end.

(** [l[i]] on a Python list. *)
Definition getitem {A : Type} (l : list A) (i : nat) : result A :=
  match l !! i with
  | Some x => Ok x
  | None => Raise (lit "list index out of range")
  end.

(** ** Similarity scores

    The scores are float64 numbers.  Every finite float64 is a rational
    number, and the pipeline only compares scores, so they are modelled as
    rationals.  The literal [0.20] denotes the float64 nearest to 1/5, which
    lies above 1/5 with no float64 in between: a float64 is below the
    literal exactly when it is below 1/5. *)

Definition Qltb (x y : Q) : bool := negb (Qle_bool y x).

Definition top_k : nat := 3.
Definition score_threshold : Q := 20 # 100.

(** [a[idx]] for an index array [idx] (numpy's integer-array indexing),
    used at indexes that [argsort] returned for [a] itself. *)
Definition gather (a : list Q) (idx : list nat) : list Q :=
  (fun i => nth i a 0%Q) <$> idx.

(** ** The library stages *)

(** Lines 216-220: [TfidfVectorizer(ngram_range=(1,2),
    stop_words='english').fit_transform] on the lower-cased sentences
    followed by the lower-cased question, and [cosine_similarity] of the
    last row against the others, flattened.  It raises (a [ValueError] with
    the message [empty_vocabulary] when no term is left), or returns one
    score per sentence. *)
Class Sklearn := {
  similarities : list str -> str -> result (list Q);
  similarities_length : forall docs q sims,
    similarities docs q = Ok sims -> length sims = length docs
}.

Definition empty_vocabulary : str :=
  lit "empty vocabulary; perhaps the documents only contain stop words".

(** [a.argsort()]: the indexes of [a] in an order that sorts it, smallest
    first.  The default algorithm of numpy is not stable. *)
Class Numpy := {
  argsort : list Q -> list nat;
  argsort_perm : forall a, argsort a ≡ₚ seq 0 (length a);
  argsort_sorted : forall a, Sorted Qle (gather a (argsort a))
}.

(** [i] occurs at an earlier position than [j]. *)
Definition before (i j : nat) (l : list nat) : Prop :=
  exists p q, l !! p = Some i /\ l !! q = Some j /\ p < q.

(** An [argsort] that keeps equal elements in their original order
    ([kind='stable']). *)
Definition stable `{Numpy} : Prop :=
  forall a i j, i < j -> j < length a -> (nth i a 0 == nth j a 0)%Q ->
    before i j (argsort a).

(** ** The pipeline (lines 184-248) *)

(** The outcomes of [ask_question], one per [return] statement or
    assignment of [answer]. *)
Inductive AnswerResult : Type :=
| EmptyQuestion                      (* line 188 *)
| NoDocument                         (* line 191 *)
| NoConfidentMatch                   (* lines 230 and 244 *)
| Answered (text : str)              (* line 245 *)
| ComputationFailure (msg : str).    (* line 247 *)

(** The value of the field [answer] of the JSON response. *)
Definition answer_field (r : AnswerResult) : str :=
  match r with
  | EmptyQuestion => lit "Ask a non-empty question"
  | NoDocument => lit "No document uploaded yet. Please upload first."
  | NoConfidentMatch =>
      lit "I couldn't find a confident answer in the uploaded document."
  | Answered text => text
  | ComputationFailure msg => lit "Could not compute answer: " ++ msg
  end.

(** The response: the [answer] field and the HTTP status. *)
Definition response (r : AnswerResult) : str * nat := (answer_field r, 200).

(** The texts of the ranked units whose score passes the threshold, in
    ranked order. *)
Definition qualifying (sentences : list str) (pairs : list (nat * Q))
  : list str :=
  omap (fun p : nat * Q =>
          if Qltb p.2 score_threshold then None else sentences !! p.1) pairs.

(** The synthesis as the specification words it (section 4.4): the units are
    visited in order; a unit whose trimmed text is empty or equal to a text
    already accepted is skipped, any other is accepted. *)
Fixpoint accept (units : list str) (accepted : list str) : list str :=
  match units with
  | [] => accepted
  | u :: rest =>
      if bool_decide (strip u = [] \/ strip u ∈ accepted)
      then accept rest accepted
      else accept rest (accepted ++ [strip u])
  end.

(** The loop of lines 235-241 over [zip(ranked_idx, top_scores)], from the
    state [(matched, used)]. *)
Fixpoint collect (sentences : list str) (pairs : list (nat * Q))
    (matched : list str) (used : gset str) : result (list str) :=
  match pairs with
  | [] => Ok matched
  | (idx, score) :: rest =>
      if Qltb score score_threshold
      then collect sentences rest matched used
      else
        match getitem sentences idx with
        | Raise msg => Raise msg
        | Ok s =>
            let text := strip s in
            if bool_decide (text <> [] /\ text ∉ used)
            then collect sentences rest (matched ++ [text]) ({[text]} ∪ used)
            else collect sentences rest matched used
        end
  end.

Section Pipeline.
Context `{Sklearn} `{Numpy}.

(** [similarities.argsort()[::-1][:top_k]] *)
Definition ranked_idx (sims : list Q) : list nat :=
  take top_k (reverse (argsort sims)).

(** [similarities[ranked_idx]] *)
Definition top_scores (sims : list Q) : list Q := gather sims (ranked_idx sims).

(** [top_scores.size == 0 or top_scores[0] < score_threshold] *)
Definition below_threshold (top : list Q) : bool :=
  match top with
  | [] => true
  | best :: _ => Qltb best score_threshold
  end.

(** The texts accepted for the answer, in order. *)
Definition matched_texts (sentences : list str) (sims : list Q) : list str :=
  accept (qualifying sentences (zip (ranked_idx sims) (top_scores sims))) [].

(** Lines 222-245, after the scores are known. *)
Definition rank_and_synthesize (sentences : list str) (sims : list Q)
  : result AnswerResult :=
  let top := top_scores sims in
  if below_threshold top then Ok NoConfidentMatch
  else
    matched ← collect sentences (zip (ranked_idx sims) top) [] ∅;
    match matched with
    | [] => Ok NoConfidentMatch
    | _ => Ok (Answered (take 1200 (join [SP] matched)))
    end.

(** The body of the [try] statement. *)
Definition try_body (sentences : list str) (question : str)
  : result AnswerResult :=
  sims ← similarities (lower <$> sentences) (lower question);
  rank_and_synthesize sentences sims.

(** Lines 189-248: the pipeline on the stored text and the stripped,
    non-empty question. *)
Definition answer_question (doc_text question : str) : AnswerResult :=
  if bool_decide (strip doc_text = []) then NoDocument
  else
    let raw := normalize_newlines doc_text in
    let sentences := segment raw in
    match try_body sentences question with
    | Ok r => r
    | Raise msg => ComputationFailure msg
    end.

(** The route: [question_field] is the field [question] of the request,
    [doc_text] what [load_extracted_text_for_user] returns. *)
Definition ask_question (question_field doc_text : str) : str * nat :=
  let question := strip question_field in
  response
    (if bool_decide (question = []) then EmptyQuestion
     else answer_question doc_text question).

End Pipeline.

(** ** Instances of the library stages *)

(** A vectorizer whose outcome is fixed in advance: it raises [msg], or
    returns the scores [sims] when there are as many as sentences. *)
Definition scripted_similarities (o : result (list Q))
    (docs : list str) (q : str) : result (list Q) :=
  match o with
  | Raise msg => Raise msg
  | Ok sims =>
      if bool_decide (length sims = length docs) then Ok sims
      else Raise (lit "inconsistent number of samples")
  end.

(** Insertion of the index [i] in front of the first index whose score is
    not smaller. *)
Fixpoint insert_idx (a : list Q) (i : nat) (sorted : list nat) : list nat :=
  match sorted with
  | [] => [i]
  | j :: t =>
      if Qle_bool (nth i a 0%Q) (nth j a 0%Q) then i :: sorted
      else j :: insert_idx a i t
  end.

(** Insertion sort of the indexes [s, s+1, ..., s+n-1], the last one
    inserted first: what numpy's [argsort] does on a short array, and a
    stable sort. *)
Definition insertion_argsort_from (a : list Q) (s n : nat) : list nat :=
  foldr (insert_idx a) [] (seq s n).

Definition insertion_argsort (a : list Q) : list nat :=
  insertion_argsort_from a 0 (length a).

(** ** Notions used in the statements *)

(** The characters of [s] that are not white space, in order. *)
Definition nonspaces (s : str) : str := filter (fun c => isspace c = false) s.

(** A character of a text that is not split: none of [.], [!], [?],
    newline, carriage return. *)
Definition run_on_char (c : ascii) : Prop :=
  Re.is_terminal c = false /\ c <> LF /\ c <> CR.

(** Highest score first. *)
Definition score_ge (a : list Q) (i j : nat) : Prop :=
  (nth j a 0 <= nth i a 0)%Q.

(** Order on indexes: by score, then by position. *)
Definition lex_lt (a : list Q) (i j : nat) : Prop :=
  (nth i a 0 < nth j a 0)%Q \/ ((nth i a 0 == nth j a 0)%Q /\ i < j).

#[global] Instance run_on_char_dec c : Decision (run_on_char c).
Proof. unfold run_on_char. apply _. Defined.

(** ** Sample inputs *)

Definition sky_doc : str := lit "The sky is blue. Water is wet.".
Definition sky_question : str := lit "what color is the sky".

(** A document of 2001 letters. *)
Definition long_doc : str := replicate 2001 "a"%char.

Definition twice_doc : str := lit "One. Two. One. Three.".

(** ** Notions used in the statements on the units *)

(** Every two neighbouring characters of [s] are related by [R]. *)
Definition neighbours (R : ascii -> ascii -> Prop) (s : str) : Prop :=
  forall l1 c d l2, s = l1 ++ c :: d :: l2 -> R c d.

(** A place where the pattern of the segmenter matches through its first
    alternative: a terminal mark followed by white space. *)
Definition boundary (c d : ascii) : Prop :=
  Re.is_terminal c = true /\ isspace d = true.

(** No place of [s] is matched by the pattern: no newline, and no terminal
    mark followed by white space. *)
Definition unbroken (s : str) : Prop :=
  (LF ∉ s) /\ neighbours (fun c d => ~ boundary c d) s.

(** Two white space characters in a row. *)
Definition double_space (c d : ascii) : Prop :=
  isspace c = true /\ isspace d = true.

(** ** Text extraction (lines 43-67) *)

(** The separator of the two joins: the literal ["\\n"], which is a
    backslash followed by the letter n, not a newline. *)
Definition backslash_n : str := ["092"%char; "n"%char].

(** The content of a file. *)
Abbreviation bytes := (list Byte.byte).

(** What the application asks of the file formats and of text files: the
    pages of a PDF ([fitz.open] either raises or gives the pages, and
    [page.get_text()] raises or returns the text of a page), the paragraphs
    of a DOCX ([docx.Document(path).paragraphs], or an exception), and
    files opened in text mode with the encoding UTF-8. Text that was
    written and is read again may differ in its line ends only. *)
Class Formats := {
  fitz_pages : bytes -> result (list (result str));
  docx_paragraphs : bytes -> result (list str);
  write_text : str -> bytes;
  read_text : bytes -> result str;
  read_text_ignore : bytes -> str;
  read_written : forall text, exists text',
    read_text (write_text text) = Ok text' /\ nonspaces text' = nonspaces text
}.

(** The loop of lines 51-52 inside its [try]: the texts appended to [text]
    before a page raises. *)
Fixpoint pages_read (pages : list (result str)) : list str :=
  match pages with
  | Ok t :: rest => t :: pages_read rest
  | _ => []
  end.

Definition extract_text_from_pdf `{Formats} (file : bytes) : str :=
  join backslash_n
    (match fitz_pages file with
     | Ok pages => pages_read pages
     | Raise _ => []
     end).

Definition extract_text_from_docx `{Formats} (file : bytes) : str :=
  match docx_paragraphs file with
  | Ok paragraphs => join backslash_n paragraphs
  | Raise _ => []
  end.

(** ** [os.path.splitext], on POSIX *)

(** [s] cut at the first occurrence of [c]. *)
Fixpoint cut_first (c : ascii) (s : str) : option (str * str) :=
  match s with
  | [] => None
  | a :: t =>
      if bool_decide (a = c) then Some ([], t)
      else match cut_first c t with
           | Some (x, y) => Some (a :: x, y)
           | None => None
           end
  end.

(** [s] cut at the last occurrence of [c] ([s.rfind(c)]). *)
Definition cut_last (c : ascii) (s : str) : option (str * str) :=
  match cut_first c (reverse s) with
  | Some (x, y) => Some (reverse y, reverse x)
  | None => None
  end.

(** The extension starts at the last dot, when that dot is in the last
    component of the path and is preceded there by a character that is
    not a dot. *)
Definition splitext (p : str) : str * str :=
  let '(dir, base) :=
    match cut_last "/"%char p with
    | Some (d, b) => (d ++ ["/"%char], b)
    | None => ([], p)
    end in
  match cut_last "."%char base with
  | Some (stem, ext) =>
      if bool_decide (Forall (fun a => a = "."%char) stem) then (p, [])
      else (dir ++ stem, "."%char :: ext)
  | None => (p, [])
  end.

(** ** The state of the application *)

(** A row of the table [users]. *)
Record user_row := {
  row_id : nat;
  row_username : str;
  row_password : str
}.

(** The database and the files of [UPLOAD_FOLDER], by the name that is
    joined to the folder. *)
Record state := {
  users : list user_row;
  uploads : gmap str bytes
}.

(** The values kept in the session. *)
Inductive value :=
| VInt (n : nat)
| VStr (s : str).

(** [f"{v}"] *)
Definition format_value (v : value) : str :=
  match v with
  | VInt n => lit (pretty n)
  | VStr s => s
  end.

(** What the application asks of werkzeug. The hash of a password is
    salted at random: the salt is an argument here. *)
Class Werkzeug := {
  generate_password_hash : str -> str -> str;
  check_password_hash : str -> str -> bool;
  check_generated : forall salt password,
    check_password_hash (generate_password_hash salt password) password = true;
  secure_filename : str -> str
}.

(** [SELECT * FROM users WHERE username = ?] and [fetchone]. *)
Fixpoint select_user (table : list user_row) (username : str) : option user_row :=
  match table with
  | [] => None
  | row :: rest =>
      if bool_decide (row_username row = username) then Some row
      else select_user rest username
  end.

(** The identifier that AUTOINCREMENT gives to the next row of a table
    from which no row was deleted. *)
Definition next_id (table : list user_row) : nat :=
  S (max_list (row_id <$> table)).

(** [INSERT INTO users (username, password)]: [None] is the
    [IntegrityError] of the constraint UNIQUE. *)
Definition insert_user (table : list user_row) (username password : str)
  : option (list user_row) :=
  match select_user table username with
  | Some _ => None
  | None =>
      Some (table ++ [{| row_id := next_id table;
                           row_username := username;
                           row_password := password |}])
  end.

(** Lines 69-72. *)
Definition save_extracted_text_for_user `{Formats}
    (st : state) (username text : str) : state :=
  {| users := users st;
     uploads := <[username ++ lit ".txt" := write_text text]> (uploads st) |}.

(** Lines 74-79. *)
Definition load_extracted_text_for_user `{Formats}
    (st : state) (username : str) : result str :=
  match uploads st !! (username ++ lit ".txt") with
  | Some file => read_text file
  | None => Ok []
  end.

(** ** Requests and responses *)

Inductive method := GET | POST.

(** An uploaded file: the entry of [request.files]. *)
Record upload := {
  filename : str;
  content : bytes
}.

Inductive request :=
| Home
| SignUp (m : method) (form : gmap string str) (salt : str)
| SignIn (m : method) (form : gmap string str)
| LogOut
| Index
| UploadFile (files : gmap string upload)
| Ask (data : gmap string str)
| Health
| StaticFile (path : str).

Inductive reply :=
| Redirect (endpoint : string)                       (* redirect(url_for(..)) *)
| Template (name : string) (username : option value) (* render_template *)
| Json (key : string) (body : str) (status : nat)    (* jsonify({key: body}), status *)
| SendFile (path : str)                              (* send_from_directory *)
| Crash (exception : string).                        (* an exception leaves the view *)

(** What a request leaves behind: the state, the session, the flashed
    messages with their category, and the response. *)
Record outcome := {
  out_state : state;
  out_session : gmap string value;
  out_flashes : list (str * string);
  out_response : reply
}.

Definition ALLOWED_EXT : gset str := {[ lit ".pdf"; lit ".docx"; lit ".txt" ]}.

(** [request.form.get(key, "").strip()] *)
Definition form_field (form : gmap string str) (key : string) : str :=
  strip (default [] (form !! key)).

Section Routes.
Context `{Sklearn} `{Numpy} `{Formats} `{Werkzeug}.

(** Lines 101-122. *)
Definition signup (st : state) (sess : gmap string value)
    (m : method) (form : gmap string str) (salt : str) : outcome :=
  match m with
  | GET => Build_outcome st sess [] (Template "signup.html" None)
  | POST =>
      let username := form_field form "username" in
      let password := form_field form "password" in
      if bool_decide (username = [] \/ password = [])
      then Build_outcome st sess
             [(lit "Provide username and password", "danger")] (Redirect "signup")
      else
        match insert_user (users st) username
                (generate_password_hash salt password) with
        | Some table =>
            Build_outcome {| users := table; uploads := uploads st |} sess
              [(lit "Account created. Please sign in.", "success")]
              (Redirect "signin")
        | None =>
            Build_outcome st sess
              [(lit "Username already exists.", "danger")] (Redirect "signup")
        end
  end.

(** Lines 124-142. *)
Definition signin (st : state) (sess : gmap string value)
    (m : method) (form : gmap string str) : outcome :=
  match m with
  | GET => Build_outcome st sess [] (Template "signin.html" None)
  | POST =>
      let username := form_field form "username" in
      let password := form_field form "password" in
      match select_user (users st) username with
      | Some row =>
          if check_password_hash (row_password row) password
          then Build_outcome st
                 (<["username" := VStr username]>
                    (<["user_id" := VInt (row_id row)]> sess))
                 [(lit "Signed in successfully", "success")] (Redirect "index")
          else Build_outcome st sess
                 [(lit "Invalid credentials", "danger")] (Redirect "signin")
      | None =>
          Build_outcome st sess
            [(lit "Invalid credentials", "danger")] (Redirect "signin")
      end
  end.

(** Lines 144-148. *)
Definition logout (st : state) : outcome :=
  Build_outcome st ∅ [(lit "Logged out", "info")] (Redirect "signin").

(** Lines 95-99. *)
Definition home (st : state) (sess : gmap string value) : outcome :=
  Build_outcome st sess []
    (if bool_decide (is_Some (sess !! "user_id")) then Redirect "index"
     else Redirect "signin").

(** Lines 81-88: the view runs only when the session has a user. *)
Definition login_required (st : state) (sess : gmap string value)
    (view : outcome) : outcome :=
  if bool_decide (is_Some (sess !! "user_id")) then view
  else Build_outcome st sess [] (Redirect "signin").

(** Lines 150-153. *)
Definition index (st : state) (sess : gmap string value) : outcome :=
  Build_outcome st sess [] (Template "index.html" (sess !! "username")).

(** Lines 169-176: the text of the file that was just saved. *)
Definition extract_text (ext : str) (file : bytes) : str :=
  if bool_decide (ext = lit ".pdf") then extract_text_from_pdf file
  else if bool_decide (ext = lit ".docx") then extract_text_from_docx file
  else read_text_ignore file.

(** Lines 155-180. [session["username"]] is looked up when the path of the
    saved file is built, after the three checks: a [KeyError] when the key
    is missing. *)
Definition upload_file (st : state) (sess : gmap string value)
    (files : gmap string upload) : outcome :=
  match files !! "file" with
  | None => Build_outcome st sess [] (Json "message" (lit "No file part") 400)
  | Some file =>
      if bool_decide (filename file = [])
      then Build_outcome st sess [] (Json "message" (lit "No selected file") 400)
      else
        let name := secure_filename (filename file) in
        let ext := lower (splitext name).2 in
        if bool_decide (ext ∉ ALLOWED_EXT)
        then Build_outcome st sess []
               (Json "message" (lit "Unsupported file type") 400)
        else
          match sess !! "username" with
          | None => Build_outcome st sess [] (Crash "KeyError")
          | Some v =>
              let username := format_value v in
              let saved :=
                {| users := users st;
                   uploads := <[username ++ lit "_" ++ name := content file]>
                                (uploads st) |} in
              let text := extract_text ext (content file) in
              if bool_decide (strip text = [])
              then Build_outcome saved sess []
                     (Json "message" (lit "Uploaded but no text extracted") 200)
              else Build_outcome
                     (save_extracted_text_for_user saved username text) sess []
                     (Json "message"
                        (lit "File uploaded and processed successfully") 200)
          end
  end.

(** Lines 184-248: the blank question is answered before the stored text
    is read; reading it may raise. *)
Definition ask (st : state) (sess : gmap string value)
    (data : gmap string str) : outcome :=
  let question_field := default [] (data !! "question") in
  if bool_decide (strip question_field = [])
  then let '(answer, status) := ask_question question_field [] in
       Build_outcome st sess [] (Json "answer" answer status)
  else
    match sess !! "username" with
    | None => Build_outcome st sess [] (Crash "KeyError")
    | Some v =>
        match load_extracted_text_for_user st (format_value v) with
        | Raise _ => Build_outcome st sess [] (Crash "UnicodeDecodeError")
        | Ok doc_text =>
            let '(answer, status) := ask_question question_field doc_text in
            Build_outcome st sess [] (Json "answer" answer status)
        end
    end.

(** The application: the view of each route. *)
Definition handle (st : state) (sess : gmap string value) (req : request)
  : outcome :=
  match req with
  | Home => home st sess
  | SignUp m form salt => signup st sess m form salt
  | SignIn m form => signin st sess m form
  | LogOut => logout st
  | Index => login_required st sess (index st sess)
  | UploadFile files => login_required st sess (upload_file st sess files)
  | Ask data => login_required st sess (ask st sess data)
  | Health => Build_outcome st sess [] (Json "status" (lit "ok") 200)
  | StaticFile path => Build_outcome st sess [] (SendFile path)
  end.

End Routes.

(** ** Notions used in the statements on the application *)

(** The session of a signed-in user names a row of the table [users], with
    both keys. *)
Definition session_ok (st : state) (sess : gmap string value) : Prop :=
  is_Some (sess !! "user_id") ->
  exists row, row ∈ users st
    /\ sess !! "user_id" = Some (VInt (row_id row))
    /\ sess !! "username" = Some (VStr (row_username row)).

(** The requests of several clients, each with its own session (its
    cookie), served one after the other. *)
Section Serve.
Context `{Sklearn} `{Numpy} `{Formats} `{Werkzeug}.

Fixpoint serve (st : state) (sessions : gmap nat (gmap string value))
    (reqs : list (nat * request))
  : state * gmap nat (gmap string value) * list reply :=
  match reqs with
  | [] => (st, sessions, [])
  | (client, req) :: rest =>
      let o := handle st (default ∅ (sessions !! client)) req in
      let '(st', sessions', replies) :=
        serve (out_state o) (<[client := out_session o]> sessions) rest in
      (st', sessions', out_response o :: replies)
  end.

End Serve.

(** ** Stand-ins for werkzeug and the file formats, for the examples *)

(** A hash that is the salt followed by the password, and its check. *)
Definition plain_hash (salt password : str) : str := salt ++ password.

Definition plain_check (pwhash password : str) : bool :=
  bool_decide (drop (length pwhash - length password) pwhash = password).

(** Files whose bytes are the characters of their text. *)
Definition plain_encode (text : str) : bytes := byte_of_ascii <$> text.
Definition plain_decode (file : bytes) : str := ascii_of_byte <$> file.

(** ** Sample requests *)

Definition alice_form : gmap string str :=
  {[ "username" := lit " alice "; "password" := lit "secret" ]}.

Definition sky_upload : gmap string upload :=
  {[ "file" := {| filename := lit "sky.txt"; content := plain_encode sky_doc |} ]}.

Definition blank_upload : gmap string upload :=
  {[ "file" := {| filename := lit "empty.txt"; content := plain_encode (lit "  ") |} ]}.

Definition sky_ask : gmap string str := {[ "question" := sky_question ]}.

Definition empty_state : state := {| users := []; uploads := ∅ |}.

Definition alice_session : gmap string value :=
  {[ "user_id" := VInt 1; "username" := VStr (lit "alice") ]}.

Definition sample_requests : list (nat * request) :=
  [ (1, SignUp POST alice_form (lit "salt"));
    (1, SignIn POST alice_form);
    (1, UploadFile sky_upload);
    (1, Ask sky_ask);
    (2, Ask sky_ask);
    (1, LogOut);
    (1, Ask sky_ask) ].

(** * Properties *)

(** ** The model on small inputs *)

Example lower_sky : lower (lit "The SKY is Blue") = lit "the sky is blue".
Proof. reflexivity. Qed.

Example strip_both_ends : strip (lit "  a b  ") = lit "a b".
Proof. reflexivity. Qed.

Example normalize_crlf :
  normalize_newlines (lit "a" ++ [CR; LF] ++ lit "b" ++ [CR] ++ lit "c")
  = lit "a" ++ [LF] ++ lit "b" ++ [LF] ++ lit "c".
Proof. reflexivity. Qed.

(** A terminal mark followed by white space splits; the mark stays with the
    piece on its left. *)
Example split_marks :
  Re.split (lit "The sky is blue. Water is wet!  Yes?No")
  = [lit "The sky is blue."; lit "Water is wet!"; lit "Yes?No"].
Proof. reflexivity. Qed.

(** A newline splits wherever it is; white space after it is only consumed
    when a terminal mark precedes the match. *)
Example split_newlines :
  Re.split ([LF] ++ lit "a" ++ [LF; LF; SP] ++ lit "b." ++ [LF; SP] ++ lit "c" ++ [LF])
  = [lit ""; lit "a"; lit " b."; lit "c"; lit ""].
Proof. reflexivity. Qed.

Example sub_spaces_runs : Re.sub_spaces (lit "a   b  c ") = lit "a b c ".
Proof. reflexivity. Qed.

Example segment_sky : segment (normalize_newlines sky_doc)
  = [lit "The sky is blue."; lit "Water is wet."].
Proof. reflexivity. Qed.

(** The fallback of line 200 on a text of white space only, which the
    guard of line 190 keeps away from the segmenter. *)
Example segment_blank : segment (lit "   ") = [lit "   "].
Proof. reflexivity. Qed.

Example join_spaces : join [SP] [lit "a"; lit "b"; lit "c"] = lit "a b c".
Proof. reflexivity. Qed.

(** ** The insertion sort of indexes satisfies the interface [Numpy] *)

Section InsertionSort.
Variable a : list Q.

#[local] Instance lex_lt_trans : Transitive (lex_lt a).
Proof.
  intros i j k [Hij | [Hij Lij]] [Hjk | [Hjk Ljk]]; unfold lex_lt.
  - left. lra.
  - left. lra.
  - left. lra.
  - right. split; [lra | lia].
Qed.

Lemma lex_lt_irrefl i : ~ (lex_lt a) i i.
Proof. intros [Hlt | [_ Hlt]]; [lra | lia]. Qed.

Lemma lex_lt_Qle i j : (lex_lt a) i j -> (nth i a 0 <= nth j a 0)%Q.
Proof. intros [Hlt | [Heq _]]; lra. Qed.

Lemma insert_idx_perm i l : insert_idx a i l ≡ₚ i :: l.
Proof.
  induction l as [|j t IH]; simpl; [done|].
  destruct (Qle_bool _ _); [done|].
  rewrite IH. apply Permutation_swap.
Qed.

Lemma insert_idx_hd i j l :
  (lex_lt a) j i -> HdRel (lex_lt a) j l -> HdRel (lex_lt a) j (insert_idx a i l).
Proof.
  intros Hji Hhd. destruct l as [|k t]; simpl; [by constructor|].
  destruct (Qle_bool _ _); constructor; [done|].
  by apply HdRel_inv in Hhd.
Qed.

Lemma insert_idx_sorted i l :
  Forall (fun j => i < j) l -> Sorted (lex_lt a) l ->
  Sorted (lex_lt a) (insert_idx a i l).
Proof.
  intros Hlt Hs. induction Hs as [|j t Hs IH Hhd]; simpl.
  { repeat constructor. }
  apply Forall_cons in Hlt as [Hij Hlt].
  destruct (Qle_bool (nth i a 0%Q) (nth j a 0%Q)) eqn:Hle.
  - apply Qle_bool_iff in Hle.
    constructor; [by constructor|]. constructor.
    destruct (Qle_lteq (nth i a 0%Q) (nth j a 0%Q)) as [Hcases _].
    destruct (Hcases Hle) as [Hl | He]; [by left|by right].
  - constructor; [by apply IH|].
    apply insert_idx_hd; [|done]. left.
    apply Qnot_le_lt. intros Hle'. apply Qle_bool_iff in Hle'. congruence.
Qed.

Lemma insertion_argsort_from_spec s n :
  insertion_argsort_from a s n ≡ₚ seq s n
  /\ Sorted (lex_lt a) (insertion_argsort_from a s n).
Proof.
  unfold insertion_argsort_from. revert s.
  induction n as [|n IH]; intros s; simpl.
  { split; [done|constructor]. }
  destruct (IH (S s)) as [Hp Hs]. split.
  - by rewrite insert_idx_perm, Hp.
  - apply insert_idx_sorted; [|done].
    apply Forall_forall. intros j Hj. rewrite Hp in Hj.
    apply elem_of_seq in Hj. lia.
Qed.

End InsertionSort.

Lemma insertion_argsort_perm a : insertion_argsort a ≡ₚ seq 0 (length a).
Proof. apply insertion_argsort_from_spec. Qed.

Lemma insertion_argsort_lex a : Sorted (lex_lt a) (insertion_argsort a).
Proof. apply insertion_argsort_from_spec. Qed.

Lemma insertion_argsort_sorted a : Sorted Qle (gather a (insertion_argsort a)).
Proof.
  unfold gather. eapply Sorted_fmap; [|apply insertion_argsort_lex].
  intros i j. apply lex_lt_Qle.
Qed.

(** numpy on short arrays. *)
Definition insertion_numpy : Numpy := {|
  argsort := insertion_argsort;
  argsort_perm := insertion_argsort_perm;
  argsort_sorted := insertion_argsort_sorted
|}.

Lemma scripted_similarities_length o docs q sims :
  scripted_similarities o docs q = Ok sims -> length sims = length docs.
Proof.
  unfold scripted_similarities. destruct o as [l|msg]; [|done].
  case_bool_decide; [|done]. by intros [= <-].
Qed.

Definition scripted (o : result (list Q)) : Sklearn := {|
  similarities := scripted_similarities o;
  similarities_length := scripted_similarities_length o
|}.

(** ** Strings: white space *)

Lemma isspace_LF : isspace LF = true.
Proof. reflexivity. Qed.

Lemma isspace_SP : isspace SP = true.
Proof. reflexivity. Qed.

Lemma isspace_CR : isspace CR = true.
Proof. reflexivity. Qed.

Lemma nonspaces_cons_space c s : isspace c = true -> nonspaces (c :: s) = nonspaces s.
Proof. intros Hc. unfold nonspaces. rewrite filter_cons_False; [done|congruence]. Qed.

Lemma nonspaces_cons_solid c s :
  isspace c = false -> nonspaces (c :: s) = c :: nonspaces s.
Proof. intros Hc. unfold nonspaces. by rewrite filter_cons_True. Qed.

Lemma nonspaces_nil_iff s : nonspaces s = [] <-> Forall (fun c => isspace c = true) s.
Proof.
  induction s as [|c t IH]; [by split; [constructor|]|].
  destruct (isspace c) eqn:Hc.
  - rewrite nonspaces_cons_space by done. rewrite IH. split.
    + by constructor.
    + by intros [_ Ht]%Forall_cons.
  - rewrite nonspaces_cons_solid by done. split; [done|].
    intros [Hc' _]%Forall_cons. congruence.
Qed.

Lemma nonspaces_dropwhile s : nonspaces (dropwhile isspace s) = nonspaces s.
Proof.
  induction s as [|c t IH]; [done|]. simpl.
  destruct (isspace c) eqn:Hc; [|done].
  by rewrite IH, nonspaces_cons_space.
Qed.

Lemma nonspaces_strip s : nonspaces (strip s) = nonspaces s.
Proof.
  unfold strip, rstrip, lstrip, nonspaces.
  rewrite filter_reverse. fold (nonspaces (dropwhile isspace (reverse (dropwhile isspace s)))).
  rewrite nonspaces_dropwhile. unfold nonspaces.
  rewrite filter_reverse, reverse_involutive.
  apply nonspaces_dropwhile.
Qed.

Lemma dropwhile_nil_iff s : dropwhile isspace s = [] <-> nonspaces s = [].
Proof.
  induction s as [|c t IH]; [done|]. simpl.
  destruct (isspace c) eqn:Hc.
  - by rewrite nonspaces_cons_space.
  - by rewrite nonspaces_cons_solid.
Qed.

(** [s.strip()] is empty exactly when [s] has only white space. *)
Lemma strip_nil_iff s : strip s = [] <-> nonspaces s = [].
Proof.
  split.
  - intros Hs. rewrite <- nonspaces_strip. by rewrite Hs.
  - intros Hs. unfold strip, rstrip, lstrip.
    apply dropwhile_nil_iff in Hs. by rewrite Hs.
Qed.

Lemma nonspaces_sub_from b s : nonspaces (Re.sub_from b s) = nonspaces s.
Proof.
  revert b. induction s as [|c t IH]; intros b; [done|]. simpl.
  destruct (isspace c) eqn:Hc.
  - rewrite (nonspaces_cons_space c) by done.
    destruct b; [done|]. by rewrite nonspaces_cons_space.
  - rewrite !nonspaces_cons_solid by done. by rewrite IH.
Qed.

Lemma nonspaces_replace_cr s : nonspaces (replace_cr s) = nonspaces s.
Proof.
  induction s as [|c t IH]; [done|]. unfold replace_cr. rewrite fmap_cons.
  fold (replace_cr t). case_bool_decide as Hc.
  - subst c. by rewrite !nonspaces_cons_space.
  - destruct (isspace c) eqn:Hs.
    + by rewrite !nonspaces_cons_space.
    + rewrite !nonspaces_cons_solid by done. by rewrite IH.
Qed.

Lemma nonspaces_replace_crlf s : nonspaces (replace_crlf s) = nonspaces s.
Proof.
  induction s as [s IH] using (induction_ltof1 _ length). unfold ltof in IH.
  destruct s as [|c [|d t]]; [done|done|].
  change (replace_crlf (c :: d :: t))
    with (if bool_decide (c = CR) && bool_decide (d = LF)
          then LF :: replace_crlf t else c :: replace_crlf (d :: t)).
  destruct (bool_decide (c = CR) && bool_decide (d = LF)) eqn:Hcd.
  - apply andb_prop in Hcd as [->%bool_decide_eq_true ->%bool_decide_eq_true].
    rewrite !nonspaces_cons_space by done. apply IH. simpl. lia.
  - destruct (isspace c) eqn:Hs.
    + rewrite !(nonspaces_cons_space c) by done. apply IH. simpl. lia.
    + rewrite !(nonspaces_cons_solid c) by done. f_equal. apply IH. simpl. lia.
Qed.

Lemma nonspaces_normalize doc : nonspaces (normalize_newlines doc) = nonspaces doc.
Proof.
  unfold normalize_newlines. by rewrite nonspaces_replace_cr, nonspaces_replace_crlf.
Qed.

(** ** The segmenter *)

Lemma span_len_Forall p s :
  Forall (fun c => p c = true) (take (Re.span_len p s) s).
Proof.
  induction s as [|c t IH]; simpl; [constructor|].
  destruct (p c) eqn:Hc; simpl; [by constructor|constructor].
Qed.

Lemma is_newline_isspace c : Re.is_newline c = true -> isspace c = true.
Proof. unfold Re.is_newline. by intros ->%bool_decide_eq_true. Qed.

(** A match of the pattern consists of white space only. *)
Lemma match_len_spaces prev s :
  Forall (fun c => isspace c = true) (take (Re.match_len prev s) s).
Proof.
  assert (Hnl : Forall (fun c => isspace c = true)
                  (take (Re.alt_newlines s) s)).
  { eapply Forall_impl; [apply span_len_Forall|]. apply is_newline_isspace. }
  unfold Re.match_len, Re.alt_terminal_spaces.
  destruct prev as [b|]; [|done].
  destruct (Re.is_terminal b); [|done].
  destruct (Re.span_len isspace s) eqn:Hn; [done|].
  rewrite <- Hn. apply span_len_Forall.
Qed.

(** Splitting removes white space only: the characters that are not white
    space are those of the pieces, in order. *)
Lemma nonspaces_split_from skip prev cur s :
  Forall (fun c => isspace c = true) (take skip s) ->
  mjoin (nonspaces <$> Re.split_from skip prev cur s)
  = nonspaces (reverse cur) ++ nonspaces s.
Proof.
  revert skip prev cur. induction s as [|c t IH]; intros skip prev cur Hskip.
  { done. }
  destruct skip as [|k].
  - cbn [Re.split_from]. pose proof (match_len_spaces prev (c :: t)) as Hm.
    destruct (Re.match_len prev (c :: t)) as [|k].
    + rewrite IH by (rewrite take_0; constructor).
      rewrite reverse_cons. unfold nonspaces.
      by rewrite (filter_app _ (reverse cur) [c]), <- app_assoc, <- filter_app.
    + rewrite firstn_cons in Hm. apply Forall_cons in Hm as [Hc Hk].
      rewrite fmap_cons. cbn [mjoin list_join]. rewrite IH by done.
      by rewrite nonspaces_cons_space.
  - cbn [Re.split_from]. rewrite firstn_cons in Hskip.
    apply Forall_cons in Hskip as [Hc Hk].
    rewrite IH by done. by rewrite nonspaces_cons_space.
Qed.

Lemma nonspaces_split raw : mjoin (nonspaces <$> Re.split raw) = nonspaces raw.
Proof.
  unfold Re.split. rewrite nonspaces_split_from; [done|].
  rewrite take_0. constructor.
Qed.

Lemma mjoin_nonempty (ls : list str) :
  mjoin ls <> [] -> exists l, l ∈ ls /\ l <> [].
Proof.
  induction ls as [|l ls IH]; [done|]. cbn [mjoin list_join]. intros Hne.
  destruct l as [|c l].
  - destruct (IH Hne) as (l' & Hin & Hl'). exists l'. split; [by right|done].
  - exists (c :: l). split; [by left|done].
Qed.

Lemma kept_iff p : kept p <-> nonspaces p <> [].
Proof.
  unfold kept. rewrite strip_nil_iff. split; [tauto|].
  intros Hp. split; [|done]. by intros ->.
Qed.

(** Every sentence of the comprehension has a character that is not white
    space. *)
Lemma split_sentences_solid raw :
  Forall (fun s => nonspaces s <> []) (split_sentences raw).
Proof.
  unfold split_sentences. apply Forall_fmap, Forall_forall.
  intros p [Hp _]%list_elem_of_filter. simpl.
  rewrite nonspaces_strip. unfold Re.sub_spaces. rewrite nonspaces_sub_from.
  by apply kept_iff in Hp.
Qed.

Lemma split_sentences_nonempty raw :
  nonspaces raw <> [] -> split_sentences raw <> [].
Proof.
  intros Hraw. rewrite <- nonspaces_split in Hraw.
  apply mjoin_nonempty in Hraw as (l & Hl & Hne).
  apply list_elem_of_fmap in Hl as (p & -> & Hp).
  unfold split_sentences. intros Hnil%fmap_nil_inv.
  assert (Hin : p ∈ filter kept (Re.split raw)).
  { apply list_elem_of_filter. split; [by apply kept_iff|done]. }
  rewrite Hnil in Hin. by apply not_elem_of_nil in Hin.
Qed.

Lemma segment_split_sentences raw :
  split_sentences raw <> [] -> segment raw = split_sentences raw.
Proof. unfold segment. by destruct (split_sentences raw). Qed.

Lemma nonblank_normalize doc :
  strip doc <> [] -> nonspaces (normalize_newlines doc) <> [].
Proof. rewrite strip_nil_iff. by rewrite nonspaces_normalize. Qed.

(** After the guard of line 190, no sentence is empty when stripped. *)
Lemma segment_solid doc :
  strip doc <> [] ->
  Forall (fun s => strip s <> []) (segment (normalize_newlines doc)).
Proof.
  intros Hdoc%nonblank_normalize.
  rewrite segment_split_sentences by by apply split_sentences_nonempty.
  eapply Forall_impl; [apply split_sentences_solid|].
  intros s Hs. by rewrite strip_nil_iff.
Qed.

Lemma split_from_run_on prev cur s :
  match prev with Some b => Re.is_terminal b = false | None => True end ->
  Forall run_on_char s ->
  Re.split_from 0 prev cur s = [reverse cur ++ s].
Proof.
  revert prev cur. induction s as [|c t IH]; intros prev cur Hprev Hs.
  { simpl. by rewrite app_nil_r. }
  apply Forall_cons in Hs as [(Hc & Hlf & _) Ht].
  cbn [Re.split_from].
  assert (Hm : Re.match_len prev (c :: t) = 0).
  { unfold Re.match_len, Re.alt_terminal_spaces, Re.alt_newlines.
    assert (Hnl : Re.span_len Re.is_newline (c :: t) = 0).
    { simpl. unfold Re.is_newline. by rewrite bool_decide_eq_false_2. }
    destruct prev as [b|]; [|done]. by rewrite Hprev. }
  rewrite Hm, IH by done.
  by rewrite reverse_cons, <- app_assoc.
Qed.

Lemma replace_cr_id s : Forall run_on_char s -> replace_cr s = s.
Proof.
  induction 1 as [|c t (_ & _ & Hc) _ IH]; [done|].
  unfold replace_cr. rewrite fmap_cons. fold (replace_cr t).
  by rewrite bool_decide_eq_false_2, IH.
Qed.

Lemma replace_crlf_id s : Forall run_on_char s -> replace_crlf s = s.
Proof.
  induction 1 as [|c t (_ & _ & Hc) Ht IH]; [done|].
  destruct t as [|d t]; [done|].
  change (replace_crlf (c :: d :: t))
    with (if bool_decide (c = CR) && bool_decide (d = LF)
          then LF :: replace_crlf t else c :: replace_crlf (d :: t)).
  by rewrite (bool_decide_eq_false_2 (c = CR)), IH.
Qed.

(** ** Ranking *)

Lemma Qltb_lt x y : Qltb x y = true <-> (x < y)%Q.
Proof.
  unfold Qltb. rewrite negb_true_iff, <- not_true_iff_false, Qle_bool_iff.
  split; [apply Qnot_le_lt|apply Qlt_not_le].
Qed.

Lemma Qltb_ge x y : Qltb x y = false <-> (y <= x)%Q.
Proof. unfold Qltb. by rewrite negb_false_iff, Qle_bool_iff. Qed.

Lemma Sorted_fmap_inv {A B} (f : A -> B) (R : relation B) l :
  Sorted R (f <$> l) -> Sorted (fun x y => R (f x) (f y)) l.
Proof.
  induction l as [|x l IH]; [constructor|].
  rewrite fmap_cons. intros [Hs Hhd]%Sorted_inv.
  constructor; [by apply IH|].
  destruct l; constructor. by apply HdRel_inv in Hhd.
Qed.

Lemma StronglySorted_lookup {A} (R : relation A) l p q x y :
  StronglySorted R l -> l !! p = Some x -> l !! q = Some y -> p < q -> R x y.
Proof.
  intros Hs. revert p q. induction Hs as [|z l Hs IH Hz]; intros p q Hp Hq Hpq.
  { done. }
  destruct q as [|q]; [lia|]. destruct p as [|p].
  - injection Hp as ->. eapply Forall_forall; [done|].
    by eapply list_elem_of_lookup_2.
  - eapply (IH p q); [done|done|lia].
Qed.

Lemma StronglySorted_take {A} (R : relation A) n l :
  StronglySorted R l -> StronglySorted R (take n l).
Proof.
  intros Hs. revert n. induction Hs as [|z l Hs IH Hz]; intros [|n]; simpl;
    try constructor; [done|].
  eapply Forall_forall. intros x Hx%elem_of_take. destruct Hx as (i & Hi & _).
  eapply Forall_forall; [done|]. by eapply list_elem_of_lookup_2.
Qed.

Lemma before_reverse i j l : before i j l -> before j i (reverse l).
Proof.
  intros (p & q & Hp & Hq & Hpq).
  assert (Hql : q < length l) by by eapply lookup_lt_Some.
  exists (length l - S q), (length l - S p).
  rewrite !reverse_lookup by lia.
  replace (length l - S (length l - S q)) with q by lia.
  replace (length l - S (length l - S p)) with p by lia.
  split_and!; [done|done|lia].
Qed.

Lemma before_take n i j l :
  NoDup l -> before i j l -> j ∈ take n l -> before i j (take n l).
Proof.
  intros Hnd (p & q & Hp & Hq & Hpq) (k & Hk & Hkn)%elem_of_take.
  assert (k = q) as -> by by eapply NoDup_lookup.
  exists p, q. rewrite !lookup_take_lt by lia. done.
Qed.

Section Ranking.
Context `{Numpy}.

Lemma argsort_length a : length (argsort a) = length a.
Proof. by rewrite argsort_perm, length_seq. Qed.

Lemma argsort_NoDup a : NoDup (argsort a).
Proof. rewrite argsort_perm. apply NoDup_seq. Qed.

Lemma elem_of_argsort a i : i ∈ argsort a <-> i < length a.
Proof. rewrite argsort_perm, elem_of_seq. lia. Qed.

#[local] Instance score_ge_trans a : Transitive (score_ge a).
Proof. intros i j k. unfold score_ge. lra. Qed.

Lemma descending_sorted a : StronglySorted (score_ge a) (reverse (argsort a)).
Proof.
  apply Sorted_StronglySorted; [apply _|].
  apply (Sorted_reverse (fun i j => (nth i a 0 <= nth j a 0)%Q)).
  apply (Sorted_fmap_inv (fun i => nth i a 0%Q) Qle), argsort_sorted.
Qed.

Lemma ranked_idx_sorted a : StronglySorted (score_ge a) (ranked_idx a).
Proof. apply StronglySorted_take, descending_sorted. Qed.

Lemma ranked_idx_NoDup a : NoDup (ranked_idx a).
Proof.
  unfold ranked_idx. eapply sublist_NoDup; [|apply sublist_take].
  rewrite reverse_Permutation. apply argsort_NoDup.
Qed.

Lemma elem_of_ranked_idx a i : i ∈ ranked_idx a -> i < length a.
Proof.
  intros (k & Hk & _)%elem_of_take.
  apply list_elem_of_lookup_2 in Hk. rewrite elem_of_reverse in Hk.
  by apply elem_of_argsort in Hk.
Qed.

Lemma ranked_idx_length a : length (ranked_idx a) = min top_k (length a).
Proof.
  unfold ranked_idx. by rewrite length_take, length_reverse, argsort_length.
Qed.

(** The ranked units are the best ones: a unit that is left out scores no
    more than any ranked unit. *)
Lemma ranked_idx_top a i j :
  i ∈ ranked_idx a -> j < length a -> j ∉ ranked_idx a -> score_ge a i j.
Proof.
  intros (p & Hp & Hp3)%elem_of_take Hj Hnj.
  apply elem_of_argsort, elem_of_reverse_2, list_elem_of_lookup_1 in Hj as [q Hq].
  destruct (decide (q < top_k)) as [Hq3|Hq3].
  { destruct Hnj. apply elem_of_take. eauto. }
  eapply (StronglySorted_lookup _ _ p q); [apply descending_sorted|done..|lia].
Qed.

Lemma top_scores_sorted a : Sorted (flip Qle) (top_scores a).
Proof.
  unfold top_scores, gather. eapply Sorted_fmap; [|apply StronglySorted_Sorted, ranked_idx_sorted].
  intros i j Hij. exact Hij.
Qed.

Lemma top_scores_length a : length (top_scores a) = length (ranked_idx a).
Proof. unfold top_scores, gather. by rewrite length_fmap. Qed.

(** [top_scores[0]] is the highest of all the scores. *)
Lemma top_scores_head_max a best :
  head (top_scores a) = Some best -> Forall (fun s => (s <= best)%Q) a.
Proof.
  intros Hhd. apply Forall_forall. intros s Hs.
  apply list_elem_of_lookup in Hs as [j Hj].
  assert (Hjl : j < length a) by by eapply lookup_lt_Some.
  rewrite <- (nth_lookup_Some a j 0%Q s Hj).
  unfold top_scores, gather in Hhd. rewrite head_lookup, list_lookup_fmap in Hhd.
  destruct (ranked_idx a !! 0) as [i|] eqn:Hi; [|done].
  injection Hhd as <-.
  unfold ranked_idx in Hi. rewrite lookup_take_lt in Hi by (unfold top_k; lia).
  apply elem_of_argsort, elem_of_reverse_2, list_elem_of_lookup_1 in Hjl as [q Hq].
  destruct q as [|q].
  - rewrite Hq in Hi. injection Hi as ->. lra.
  - eapply (StronglySorted_lookup (score_ge a) _ 0 (S q));
      [apply descending_sorted|done..|lia].
Qed.

(** With a stable [argsort], of two units with the same score the one that
    comes later in the document is ranked first. *)
Lemma ranked_idx_ties a i j :
  stable -> i < j -> j < length a -> (nth i a 0 == nth j a 0)%Q ->
  i ∈ ranked_idx a -> before j i (ranked_idx a).
Proof.
  intros Hst Hij Hj Heq Hi. unfold ranked_idx. apply before_take; [| |done].
  - rewrite reverse_Permutation. apply argsort_NoDup.
  - apply before_reverse. by apply Hst.
Qed.

End Ranking.

(** The insertion sort is stable. *)
Lemma insertion_numpy_stable : @stable insertion_numpy.
Proof.
  intros a i j Hij Hj Heq. simpl.
  assert (Hs : StronglySorted (lex_lt a) (insertion_argsort a)).
  { apply @Sorted_StronglySorted; [apply lex_lt_trans|apply insertion_argsort_lex]. }
  assert (Hi' : i ∈ insertion_argsort a).
  { rewrite insertion_argsort_perm, elem_of_seq. lia. }
  assert (Hj' : j ∈ insertion_argsort a).
  { rewrite insertion_argsort_perm, elem_of_seq. lia. }
  apply list_elem_of_lookup in Hi' as [p Hp].
  apply list_elem_of_lookup in Hj' as [q Hq].
  exists p, q. split_and!; [done..|].
  destruct (decide (p < q)) as [|Hpq]; [done|].
  assert (q < p).
  { assert (p <> q); [|lia]. intros ->. rewrite Hp in Hq. injection Hq. lia. }
  pose proof (StronglySorted_lookup _ _ q p j i Hs Hq Hp ltac:(done)) as [Hlt | [_ Hlt]].
  - lra.
  - lia.
Qed.

(** ** Synthesis *)

Lemma accept_prefix units accepted : accepted `prefix_of` accept units accepted.
Proof.
  revert accepted. induction units as [|u rest IH]; intros accepted; simpl.
  { done. }
  case_bool_decide; [apply IH|].
  etrans; [|apply IH]. by apply prefix_app_r.
Qed.

Lemma accept_NoDup units accepted : NoDup accepted -> NoDup (accept units accepted).
Proof.
  revert accepted. induction units as [|u rest IH]; intros accepted Hnd; simpl.
  { done. }
  case_bool_decide as Hu; [by apply IH|].
  apply IH, NoDup_app. split_and!; [done| |apply NoDup_singleton].
  intros x Hx ->%list_elem_of_singleton. tauto.
Qed.

Lemma accept_elem units accepted x :
  x ∈ accept units accepted <->
  x ∈ accepted \/ (x <> [] /\ exists u, u ∈ units /\ strip u = x).
Proof.
  revert accepted. induction units as [|u rest IH]; intros accepted; simpl.
  { split; [by left|]. intros [?|(_ & u & Hu & _)]; [done|].
    by apply not_elem_of_nil in Hu. }
  case_bool_decide as Hu; rewrite IH.
  - split.
    + intros [?|(Hx & v & Hv & Hs)]; [by left|].
      right. split; [done|]. exists v. split; [by right|done].
    + intros [?|(Hx & v & Hv & Hs)]; [by left|].
      apply elem_of_cons in Hv as [-> | Hv].
      * left. destruct Hu as [Hu|Hu]; [congruence|by rewrite <- Hs].
      * right. eauto.
  - rewrite elem_of_app, list_elem_of_singleton. split.
    + intros [[? | ->] | (Hx & v & Hv & Hs)]; [by left| |].
      * right. split; [tauto|]. exists u. split; [by left|done].
      * right. split; [done|]. exists v. split; [by right|done].
    + intros [?|(Hx & v & Hv & Hs)]; [by left; left|].
      apply elem_of_cons in Hv as [-> | Hv].
      * left. by right.
      * right. eauto.
Qed.

(** The loop of the code computes [accept] on the qualifying units, the set
    [used] holding the texts of [matched]. *)
Lemma collect_accept (sentences : list str) (pairs : list (nat * Q))
    (matched : list str) (used : gset str) :
  Forall (fun p : nat * Q => p.1 < length sentences) pairs ->
  (forall x, x ∈ used <-> x ∈ matched) ->
  collect sentences pairs matched used
  = Ok (accept (qualifying sentences pairs) matched).
Proof.
  intros Hrange. revert matched used.
  induction Hrange as [|[idx score] rest Hidx Hrange IH]; intros matched used Hused.
  { done. }
  unfold qualifying. cbn [collect omap list_omap fst snd]. fold (qualifying sentences rest).
  destruct (Qltb score score_threshold); [by apply IH|].
  simpl in Hidx. apply lookup_lt_is_Some_2 in Hidx as [s Hs].
  unfold getitem. rewrite Hs. cbn [accept]. case_bool_decide as Hnew.
  - rewrite bool_decide_eq_false_2.
    + apply IH. intros x. rewrite elem_of_union, elem_of_singleton, elem_of_app,
        list_elem_of_singleton, Hused. tauto.
    + rewrite <- Hused. tauto.
  - rewrite bool_decide_eq_true_2; [by apply IH|].
    rewrite <- Hused. destruct (decide (strip s = [])); [by left|].
    right. destruct (decide (strip s ∈ used)); tauto.
Qed.

(** ** The pipeline *)

Section PipelineFacts.
Context `{Sklearn} `{Numpy}.

Lemma below_threshold_iff (top : list Q) :
  below_threshold top = true <->
  top = [] \/ exists best, head top = Some best /\ (best < score_threshold)%Q.
Proof.
  destruct top as [|best rest]; simpl.
  { split; [by left|done]. }
  rewrite Qltb_lt. split.
  - intros Hlt. right. eauto.
  - intros [?|(b & [= <-] & Hlt)]; done.
Qed.

Lemma threshold_passed_iff (top : list Q) :
  below_threshold top = false <->
  exists best, head top = Some best /\ (score_threshold <= best)%Q.
Proof.
  destruct top as [|best rest]; simpl.
  { split; [done|]. by intros (b & ? & _). }
  rewrite Qltb_ge. split.
  - eauto.
  - by intros (b & [= <-] & Hle).
Qed.

Lemma ranked_pairs_in_range (sentences : list str) (sims : list Q) :
  length sims = length sentences ->
  Forall (fun p : nat * Q => p.1 < length sentences)
    (zip (ranked_idx sims) (top_scores sims)).
Proof.
  intros Hlen. apply Forall_forall. intros [idx score] Hin.
  apply elem_of_zip_l, elem_of_ranked_idx in Hin. simpl. lia.
Qed.

Lemma collect_ranked (sentences : list str) (sims : list Q) :
  length sims = length sentences ->
  collect sentences (zip (ranked_idx sims) (top_scores sims)) [] ∅
  = Ok (matched_texts sentences sims).
Proof.
  intros Hlen. apply collect_accept; [by apply ranked_pairs_in_range|].
  intros x. split; [by intros ?%not_elem_of_empty|by intros ?%not_elem_of_nil].
Qed.

(** Lines 222-245 never raise, and what they return. *)
Lemma rank_and_synthesize_eq (sentences : list str) (sims : list Q) :
  length sims = length sentences ->
  rank_and_synthesize sentences sims
  = Ok (if below_threshold (top_scores sims) then NoConfidentMatch
        else match matched_texts sentences sims with
             | [] => NoConfidentMatch
             | matched => Answered (take 1200 (join [SP] matched))
             end).
Proof.
  intros Hlen. unfold rank_and_synthesize.
  destruct (below_threshold (top_scores sims)); [done|].
  rewrite collect_ranked by done. simpl.
  by destruct (matched_texts sentences sims).
Qed.

(** When the threshold is passed and no sentence is blank, the best unit is
    accepted. *)
Lemma matched_texts_nonempty (sentences : list str) (sims : list Q) :
  length sims = length sentences ->
  Forall (fun s => strip s <> []) sentences ->
  below_threshold (top_scores sims) = false ->
  matched_texts sentences sims <> [].
Proof.
  intros Hlen Hsolid Hpassed. unfold matched_texts.
  pose proof (elem_of_ranked_idx sims) as Hrange.
  unfold top_scores, gather in *.
  destruct (ranked_idx sims) as [|idx rest]; [done|].
  rewrite fmap_cons in *. cbn [below_threshold] in Hpassed.
  unfold qualifying. cbn [zip zip_with omap list_omap fst snd]. rewrite Hpassed.
  assert (Hidx : idx < length sentences).
  { rewrite <- Hlen. apply Hrange. by left. }
  apply lookup_lt_is_Some_2 in Hidx as [s Hs]. rewrite Hs.
  assert (Hne : strip s <> []).
  { eapply Forall_forall in Hsolid; [done|]. by eapply list_elem_of_lookup_2. }
  cbn [accept]. rewrite bool_decide_eq_false_2.
  - match goal with |- accept ?u ?acc <> [] =>
      destruct (accept_prefix u acc) as [k ->] end. done.
  - intros [?|?%not_elem_of_nil]; done.
Qed.

Lemma join_length_cap (matched : list str) : length (take 1200 (join [SP] matched)) <= 1200.
Proof. rewrite length_take. lia. Qed.

(** What an [Answered] outcome tells. *)
Lemma answered_inv (doc_text question text : str) :
  answer_question doc_text question = Answered text ->
  strip doc_text <> [] /\
  exists sims,
    let sentences := segment (normalize_newlines doc_text) in
    similarities (lower <$> sentences) (lower question) = Ok sims
    /\ below_threshold (top_scores sims) = false
    /\ matched_texts sentences sims <> []
    /\ text = take 1200 (join [SP] (matched_texts sentences sims)).
Proof.
  unfold answer_question. case_bool_decide as Hdoc; [done|].
  intros Hans. split; [done|]. unfold try_body in Hans.
  destruct (similarities _ _) as [sims|msg] eqn:Hsims; [|done].
  exists sims. simpl. split; [done|].
  assert (Hlen : length sims = length (segment (normalize_newlines doc_text))).
  { apply similarities_length in Hsims. by rewrite length_fmap in Hsims. }
  simpl in Hans. rewrite rank_and_synthesize_eq in Hans by done.
  destruct (below_threshold (top_scores sims)); [done|].
  destruct (matched_texts _ sims) as [|m ms] eqn:Hm; [done|].
  injection Hans as <-. done.
Qed.

(** The outcome when the library stage returns scores. *)
Lemma answer_question_scored (doc_text question : str) (sims : list Q) :
  strip doc_text <> [] ->
  similarities (lower <$> segment (normalize_newlines doc_text)) (lower question)
    = Ok sims ->
  answer_question doc_text question
  = if below_threshold (top_scores sims) then NoConfidentMatch
    else Answered (take 1200 (join [SP]
           (matched_texts (segment (normalize_newlines doc_text)) sims))).
Proof.
  intros Hdoc Hsims. unfold answer_question, try_body.
  rewrite bool_decide_eq_false_2 by done. rewrite Hsims. simpl.
  assert (Hlen : length sims = length (segment (normalize_newlines doc_text))).
  { apply similarities_length in Hsims. by rewrite length_fmap in Hsims. }
  rewrite rank_and_synthesize_eq by done.
  destruct (below_threshold (top_scores sims)) eqn:Hpassed; [done|].
  pose proof (matched_texts_nonempty _ sims Hlen (segment_solid _ Hdoc) Hpassed).
  by destruct (matched_texts _ sims).
Qed.

(** The outcome when the library stage raises. *)
Lemma answer_question_raised (doc_text question msg : str) :
  strip doc_text <> [] ->
  try_body (segment (normalize_newlines doc_text)) question = Raise msg ->
  answer_question doc_text question = ComputationFailure msg.
Proof.
  intros Hdoc Hraise. unfold answer_question.
  rewrite bool_decide_eq_false_2 by done. simpl. by rewrite Hraise.
Qed.

Lemma try_body_raised (sentences : list str) (question msg : str) :
  similarities (lower <$> sentences) (lower question) = Raise msg ->
  try_body sentences question = Raise msg.
Proof. intros Hraise. unfold try_body. by rewrite Hraise. Qed.

End PipelineFacts.

(** ** The pipeline on small inputs, with scripted scores *)

Example ask_sky :
  @ask_question (scripted (Ok [1 # 2; 1 # 10])) insertion_numpy
    (lit " what color is the sky ") sky_doc
  = (lit "The sky is blue.", 200).
Proof. vm_compute. reflexivity. Qed.

Example ask_sky_both :
  @ask_question (scripted (Ok [1 # 5; 3 # 10])) insertion_numpy sky_question sky_doc
  = (lit "Water is wet. The sky is blue.", 200).
Proof. vm_compute. reflexivity. Qed.

Example ask_sky_low :
  @ask_question (scripted (Ok [19 # 100; 0 # 1])) insertion_numpy sky_question sky_doc
  = (lit "I couldn't find a confident answer in the uploaded document.", 200).
Proof. vm_compute. reflexivity. Qed.

Example ask_blank_question :
  @ask_question (scripted (Ok [1 # 2; 1 # 10])) insertion_numpy (lit "   ") sky_doc
  = (lit "Ask a non-empty question", 200).
Proof. vm_compute. reflexivity. Qed.

Example ask_twice :
  @ask_question (scripted (Ok [1 # 2; 1 # 2; 1 # 2; 1 # 2])) insertion_numpy
    (lit "one") twice_doc
  = (lit "Three. One. Two.", 200).
Proof. vm_compute. reflexivity. Qed.

(** * Main results *)

(** C1. When the library stage returns scores: if the top-K set is empty or
    its first score, which is the highest of all the scores, is below the
    threshold 0.20, the outcome is [NoConfidentMatch]; if that score is at
    or above 0.20, the outcome is [Answered]. *)
Theorem confidence_threshold `{Sklearn} `{Numpy} (doc_text question : str) (sims : list Q) :
  strip doc_text <> [] ->
  similarities (lower <$> segment (normalize_newlines doc_text)) (lower question)
    = Ok sims ->
  ((top_scores sims = []
    \/ exists best, head (top_scores sims) = Some best /\ (best < 20 # 100)%Q) ->
   answer_question doc_text question = NoConfidentMatch)
  /\ (forall best, head (top_scores sims) = Some best -> (20 # 100 <= best)%Q ->
      exists text, answer_question doc_text question = Answered text)
  /\ (forall best, head (top_scores sims) = Some best ->
      Forall (fun s => (s <= best)%Q) sims).
Proof.
  intros Hdoc Hsims.
  rewrite (answer_question_scored _ _ _ Hdoc Hsims). split_and!.
  - intros Hfail. apply below_threshold_iff in Hfail. by rewrite Hfail.
  - intros best Hhd Hle.
    assert (Hpass : below_threshold (top_scores sims) = false).
    { apply threshold_passed_iff. eauto. }
    rewrite Hpass. eauto.
  - intros best. apply top_scores_head_max.
Qed.

Lemma confidence_threshold_witness :
  strip sky_doc <> []
  /\ @similarities (scripted (Ok [1 # 2; 1 # 10]))
       (lower <$> segment (normalize_newlines sky_doc)) (lower sky_question)
     = Ok [1 # 2; 1 # 10]
  /\ exists text,
       @answer_question (scripted (Ok [1 # 2; 1 # 10])) insertion_numpy
         sky_doc sky_question = Answered text.
Proof.
  assert (Hdoc : strip sky_doc <> []) by (vm_compute; discriminate).
  assert (Hsims : @similarities (scripted (Ok [1 # 2; 1 # 10]))
       (lower <$> segment (normalize_newlines sky_doc)) (lower sky_question)
     = Ok [1 # 2; 1 # 10]) by reflexivity.
  split; [exact Hdoc|]. split; [exact Hsims|].
  destruct (@confidence_threshold (scripted (Ok [1 # 2; 1 # 10])) insertion_numpy
              sky_doc sky_question [1 # 2; 1 # 10] Hdoc Hsims) as (_ & Hans & _).
  apply (Hans (1 # 2)); [reflexivity|]. vm_compute. discriminate.
Defined.

(** C2, as the code has it. The ranked indexes are the (at most three)
    units of highest score, without repetition and by descending score;
    equal scores come in the reverse of the order [argsort] gives them, so
    that with a stable [argsort] the unit that occurs later in the document
    comes first. *)
Theorem ranking_order `{Numpy} (sims : list Q) :
  StronglySorted (fun i j => (nth j sims 0 <= nth i sims 0)%Q) (ranked_idx sims)
  /\ Sorted (flip Qle) (top_scores sims)
  /\ NoDup (ranked_idx sims)
  /\ length (ranked_idx sims) = min 3 (length sims)
  /\ (forall i, i ∈ ranked_idx sims -> i < length sims)
  /\ (forall i j, i ∈ ranked_idx sims -> j < length sims -> j ∉ ranked_idx sims ->
      (nth j sims 0 <= nth i sims 0)%Q)
  /\ (stable ->
      forall i j, i < j -> j < length sims -> (nth i sims 0 == nth j sims 0)%Q ->
        i ∈ ranked_idx sims -> before j i (ranked_idx sims)).
Proof.
  split_and!.
  - apply ranked_idx_sorted.
  - apply top_scores_sorted.
  - apply ranked_idx_NoDup.
  - apply ranked_idx_length.
  - apply elem_of_ranked_idx.
  - apply ranked_idx_top.
  - intros Hst i j. by apply ranked_idx_ties.
Qed.

Lemma ranking_order_witness :
  @stable insertion_numpy
  /\ before 1 0 (@ranked_idx insertion_numpy [1 # 2; 1 # 2]).
Proof.
  split; [exact insertion_numpy_stable|].
  destruct (@ranking_order insertion_numpy [1 # 2; 1 # 2])
    as (_ & _ & _ & _ & _ & _ & Hties).
  apply (Hties insertion_numpy_stable 0 1).
  - lia.
  - simpl. lia.
  - reflexivity.
  - vm_compute. apply list_elem_of_In. simpl. tauto.
Defined.

(** C2, as the specification states it, fails: with two units of the same score, the
    insertion sort (numpy on a short array) lists index 0 then index 1, and
    the reversal ranks the later unit first. *)
Lemma ranking_order_counterexample :
  @ranked_idx insertion_numpy [1 # 2; 1 # 2] = [1; 0]
  /\ ~ before 0 1 (@ranked_idx insertion_numpy [1 # 2; 1 # 2]).
Proof.
  assert (Hr : @ranked_idx insertion_numpy [1 # 2; 1 # 2] = [1; 0]) by reflexivity.
  split; [exact Hr|]. rewrite Hr. intros (p & q & Hp & Hq & Hpq).
  destruct p as [|[|p]]; try done. destruct q as [|[|q]]; try done. lia.
Qed.

(** C3, as the code has it. A text with a character that is not white
    space and without [.], [!], [?], newline and carriage return is one
    sentence whatever its length: the fallback does not fire, and the only
    unit is the whole text, its runs of white space collapsed, stripped. *)
Theorem run_on_single_unit (doc_text : str) :
  Forall run_on_char doc_text ->
  strip doc_text <> [] ->
  normalize_newlines doc_text = doc_text
  /\ split_sentences (normalize_newlines doc_text) = [strip (Re.sub_spaces doc_text)]
  /\ segment (normalize_newlines doc_text) = [strip (Re.sub_spaces doc_text)].
Proof.
  intros Hrun Hdoc.
  assert (Hraw : normalize_newlines doc_text = doc_text).
  { unfold normalize_newlines. by rewrite replace_crlf_id, replace_cr_id. }
  assert (Hsplit : split_sentences doc_text = [strip (Re.sub_spaces doc_text)]).
  { unfold split_sentences, Re.split.
    rewrite split_from_run_on by done. rewrite reverse_nil, app_nil_l.
    rewrite filter_cons_True, filter_nil; [done|].
    apply kept_iff. by rewrite <- strip_nil_iff. }
  rewrite Hraw. split_and!; [done|done|].
  rewrite segment_split_sentences; [done|]. by rewrite Hsplit.
Qed.

Lemma run_on_single_unit_witness :
  Forall run_on_char long_doc
  /\ strip long_doc <> []
  /\ segment (normalize_newlines long_doc) = [strip (Re.sub_spaces long_doc)].
Proof.
  assert (Hrun : Forall run_on_char long_doc).
  { apply (bool_decide_unpack _). vm_compute. exact I. }
  assert (Hdoc : strip long_doc <> []) by (vm_compute; discriminate).
  split; [exact Hrun|]. split; [exact Hdoc|].
  apply (run_on_single_unit long_doc Hrun Hdoc).
Defined.

(** C3, as the specification states it, fails: for the text of 2001 letters [a] the
    only unit is the whole text, of length 2001, not its first 2000
    characters. *)
Lemma run_on_single_unit_counterexample :
  Forall run_on_char long_doc
  /\ 2000 < length long_doc
  /\ segment (normalize_newlines long_doc) = [long_doc]
  /\ segment (normalize_newlines long_doc)
     <> [take 2000 (normalize_newlines long_doc)].
Proof.
  split_and!.
  - apply (bool_decide_unpack _). vm_compute. exact I.
  - vm_compute. lia.
  - vm_compute. reflexivity.
  - intros Heq. apply (f_equal (fun l => length <$> l)) in Heq.
    vm_compute in Heq. discriminate.
Qed.

(** C4, as the code has it. When the vectorizer raises for an empty
    vocabulary, the pipeline does not raise: the exception is caught by the
    handler of line 246, and the response carries the diagnostic "Could not
    compute answer: " followed by the message of the exception, which is
    not the response of [NoConfidentMatch]. *)
Theorem empty_vocabulary_outcome `{Sklearn} `{Numpy} (doc_text question : str) :
  strip doc_text <> [] ->
  similarities (lower <$> segment (normalize_newlines doc_text)) (lower question)
    = Raise empty_vocabulary ->
  answer_question doc_text question = ComputationFailure empty_vocabulary
  /\ response (answer_question doc_text question)
     = (lit "Could not compute answer: empty vocabulary; perhaps the documents only contain stop words",
        200)
  /\ response (answer_question doc_text question) <> response NoConfidentMatch.
Proof.
  intros Hdoc Hraise.
  rewrite (answer_question_raised _ _ _ Hdoc (try_body_raised _ _ _ Hraise)).
  split_and!; [done|done|]. vm_compute. discriminate.
Qed.

Lemma empty_vocabulary_outcome_witness :
  strip (lit "a") <> []
  /\ @similarities (scripted (Raise empty_vocabulary))
       (lower <$> segment (normalize_newlines (lit "a"))) (lower (lit "a"))
     = Raise empty_vocabulary
  /\ @answer_question (scripted (Raise empty_vocabulary)) insertion_numpy
       (lit "a") (lit "a")
     = ComputationFailure empty_vocabulary.
Proof.
  assert (Hdoc : strip (lit "a") <> []) by (vm_compute; discriminate).
  assert (Hraise : @similarities (scripted (Raise empty_vocabulary))
       (lower <$> segment (normalize_newlines (lit "a"))) (lower (lit "a"))
     = Raise empty_vocabulary) by reflexivity.
  split; [exact Hdoc|]. split; [exact Hraise|].
  apply (@empty_vocabulary_outcome (scripted (Raise empty_vocabulary))
           insertion_numpy (lit "a") (lit "a") Hdoc Hraise).
Defined.

(** C4, as the specification states it, fails: the document "a" and the question "a"
    have no token of two characters; the vectorizer raises for the empty
    vocabulary, and the outcome is the diagnostic one, whose response
    differs from that of [NoConfidentMatch]. *)
Lemma empty_vocabulary_counterexample :
  @similarities (scripted (Raise empty_vocabulary))
    (lower <$> segment (normalize_newlines (lit "a"))) (lower (lit "a"))
  = Raise empty_vocabulary
  /\ @answer_question (scripted (Raise empty_vocabulary)) insertion_numpy
       (lit "a") (lit "a")
     <> NoConfidentMatch
  /\ @ask_question (scripted (Raise empty_vocabulary)) insertion_numpy
       (lit "a") (lit "a")
     <> response NoConfidentMatch.
Proof.
  split_and!.
  - reflexivity.
  - vm_compute. discriminate.
  - vm_compute. discriminate.
Qed.

(** C5. The text of an [Answered] outcome is the join with single spaces of
    the accepted texts, cut after 1200 characters wherever that falls, and
    its length is at most 1200. *)
Theorem answer_length_cap `{Sklearn} `{Numpy} (doc_text question text : str) :
  answer_question doc_text question = Answered text ->
  length text <= 1200
  /\ exists sims,
       similarities (lower <$> segment (normalize_newlines doc_text))
         (lower question) = Ok sims
       /\ text = take 1200 (join [SP]
           (matched_texts (segment (normalize_newlines doc_text)) sims)).
Proof.
  intros (_ & sims & Hsims & _ & _ & ->)%answered_inv.
  split; [apply join_length_cap|]. eauto.
Qed.

Lemma answer_length_cap_witness :
  @answer_question (scripted (Ok [1 # 2; 1 # 10])) insertion_numpy
    sky_doc sky_question = Answered (lit "The sky is blue.")
  /\ length (lit "The sky is blue.") <= 1200.
Proof.
  assert (Hans : @answer_question (scripted (Ok [1 # 2; 1 # 10])) insertion_numpy
    sky_doc sky_question = Answered (lit "The sky is blue.")) by (vm_compute; reflexivity).
  split; [exact Hans|].
  apply (@answer_length_cap (scripted (Ok [1 # 2; 1 # 10])) insertion_numpy
           sky_doc sky_question (lit "The sky is blue.") Hans).
Defined.

(** C6. When the stored text is empty, or has only white space, the outcome
    is [NoDocument] whatever the question and whatever the library stages
    would do; through the route, for a question that is not blank, the
    response is that of [NoDocument]. *)
Theorem no_document `{Sklearn} `{Numpy} (doc_text : str) :
  strip doc_text = [] ->
  (forall question, answer_question doc_text question = NoDocument)
  /\ (forall question_field, strip question_field <> [] ->
      ask_question question_field doc_text
      = (lit "No document uploaded yet. Please upload first.", 200)).
Proof.
  intros Hdoc.
  assert (Hcore : forall question, answer_question doc_text question = NoDocument).
  { intros question. unfold answer_question. by rewrite bool_decide_eq_true_2. }
  split; [done|]. intros question_field Hq. unfold ask_question.
  by rewrite bool_decide_eq_false_2, Hcore.
Qed.

Lemma no_document_witness :
  strip (lit "") = []
  /\ @answer_question (scripted (Ok [1 # 1])) insertion_numpy (lit "") (lit "anything")
     = NoDocument.
Proof.
  assert (Hdoc : strip (lit "") = []) by reflexivity.
  split; [exact Hdoc|].
  apply (@no_document (scripted (Ok [1 # 1])) insertion_numpy (lit "") Hdoc).
Defined.

(** C7. In an [Answered] outcome the accepted texts are those the loop of
    the code collects, which are those of the synthesis of the
    specification ([accept]) on the qualifying units in ranked order, by
    descending score: no text occurs twice, and a text is accepted exactly
    when it is not empty and is the stripped text of a qualifying unit. *)
Theorem synthesis_dedup `{Sklearn} `{Numpy} (doc_text question text : str) :
  answer_question doc_text question = Answered text ->
  exists sims,
    let sentences := segment (normalize_newlines doc_text) in
    let pairs := zip (ranked_idx sims) (top_scores sims) in
    let matched := accept (qualifying sentences pairs) [] in
    similarities (lower <$> sentences) (lower question) = Ok sims
    /\ Sorted (flip Qle) (top_scores sims)
    /\ collect sentences pairs [] ∅ = Ok matched
    /\ NoDup matched
    /\ (forall x, x ∈ matched <->
          x <> [] /\ exists u, u ∈ qualifying sentences pairs /\ strip u = x)
    /\ text = take 1200 (join [SP] matched).
Proof.
  intros (_ & sims & Hsims & _ & _ & ->)%answered_inv.
  exists sims. simpl. split_and!.
  - done.
  - apply top_scores_sorted.
  - apply collect_ranked. apply similarities_length in Hsims.
    by rewrite length_fmap in Hsims.
  - apply accept_NoDup, NoDup_nil_2.
  - intros x. rewrite accept_elem. split; [|by right].
    by intros [?%not_elem_of_nil|?].
  - done.
Qed.

Lemma synthesis_dedup_witness :
  @answer_question (scripted (Ok [1 # 2; 1 # 10; 1 # 2; 3 # 10])) insertion_numpy
    twice_doc (lit "one") = Answered (lit "One. Three.")
  /\ exists sims,
       @similarities (scripted (Ok [1 # 2; 1 # 10; 1 # 2; 3 # 10]))
         (lower <$> segment (normalize_newlines twice_doc)) (lower (lit "one"))
       = Ok sims
       /\ NoDup (accept
            (qualifying (segment (normalize_newlines twice_doc))
               (zip (@ranked_idx insertion_numpy sims)
                    (@top_scores insertion_numpy sims))) []).
Proof.
  assert (Hans : @answer_question (scripted (Ok [1 # 2; 1 # 10; 1 # 2; 3 # 10]))
    insertion_numpy twice_doc (lit "one") = Answered (lit "One. Three."))
    by (vm_compute; reflexivity).
  split; [exact Hans|].
  destruct (@synthesis_dedup (scripted (Ok [1 # 2; 1 # 10; 1 # 2; 3 # 10]))
              insertion_numpy twice_doc (lit "one") (lit "One. Three.") Hans)
    as (sims & Hsims & _ & _ & Hnd & _).
  exists sims. split; [exact Hsims|exact Hnd].
Defined.

(** C9. With a question and a stored text that are not blank, an exception
    raised by the vectorizer or the similarity, or anywhere in the body of
    the [try] statement, is caught: the outcome is [ComputationFailure]
    with the message of the exception, and the route returns the response
    "Could not compute answer: " followed by that message, with status
    200. *)
Theorem failure_caught `{Sklearn} `{Numpy} (question_field doc_text msg : str) :
  strip question_field <> [] ->
  strip doc_text <> [] ->
  similarities (lower <$> segment (normalize_newlines doc_text))
      (lower (strip question_field)) = Raise msg
  \/ try_body (segment (normalize_newlines doc_text)) (strip question_field)
     = Raise msg ->
  answer_question doc_text (strip question_field) = ComputationFailure msg
  /\ ask_question question_field doc_text
     = (lit "Could not compute answer: " ++ msg, 200).
Proof.
  intros Hq Hdoc Hraise.
  assert (Hbody : try_body (segment (normalize_newlines doc_text))
                    (strip question_field) = Raise msg).
  { destruct Hraise as [Hraise|Hraise]; [by apply try_body_raised|done]. }
  pose proof (answer_question_raised _ _ _ Hdoc Hbody) as Hans.
  split; [done|]. unfold ask_question.
  by rewrite bool_decide_eq_false_2, Hans.
Qed.

Lemma failure_caught_witness :
  strip sky_question <> []
  /\ strip sky_doc <> []
  /\ @ask_question (scripted (Raise (lit "out of memory"))) insertion_numpy
       sky_question sky_doc
     = (lit "Could not compute answer: out of memory", 200).
Proof.
  assert (Hq : strip sky_question <> []) by (vm_compute; discriminate).
  assert (Hdoc : strip sky_doc <> []) by (vm_compute; discriminate).
  split; [exact Hq|]. split; [exact Hdoc|].
  apply (@failure_caught (scripted (Raise (lit "out of memory"))) insertion_numpy
           sky_question sky_doc (lit "out of memory") Hq Hdoc).
  left. reflexivity.
Defined.

(** C10. A stored text that passes the guard of line 190 has a character
    that is not white space; the pattern only matches white space, so one
    of the pieces of the split keeps that character and is not empty once
    collapsed and stripped: the list of sentences is not empty and the
    fallback of line 200 is not taken. *)
Theorem fallback_unreachable (doc_text : str) :
  strip doc_text <> [] ->
  (exists p, p ∈ Re.split (normalize_newlines doc_text)
             /\ strip p <> [] /\ strip (Re.sub_spaces p) <> [])
  /\ split_sentences (normalize_newlines doc_text) <> []
  /\ segment (normalize_newlines doc_text)
     = split_sentences (normalize_newlines doc_text).
Proof.
  intros Hraw%nonblank_normalize. split_and!.
  - pose proof Hraw as Hjoin. rewrite <- nonspaces_split in Hjoin.
    apply mjoin_nonempty in Hjoin as (l & Hl & Hne).
    apply list_elem_of_fmap in Hl as (p & -> & Hp).
    exists p. split; [done|]. rewrite !strip_nil_iff.
    unfold Re.sub_spaces. by rewrite nonspaces_sub_from.
  - by apply split_sentences_nonempty.
  - by apply segment_split_sentences, split_sentences_nonempty.
Qed.

Lemma fallback_unreachable_witness :
  strip (lit "  hello world  ") <> []
  /\ split_sentences (normalize_newlines (lit "  hello world  ")) <> [].
Proof.
  assert (Hdoc : strip (lit "  hello world  ") <> []) by (vm_compute; discriminate).
  split; [exact Hdoc|].
  apply (fallback_unreachable (lit "  hello world  ") Hdoc).
Defined.

(** * Further properties of the segmenter *)

(** ** Neighbouring characters *)

Lemma neighbours_nil R : neighbours R [].
Proof. intros l1 c d l2 Heq. by destruct l1. Qed.

Lemma neighbours_tail R c s : neighbours R (c :: s) -> neighbours R s.
Proof. intros Hn l1 a b l2 ->. by apply (Hn (c :: l1) a b l2). Qed.

Lemma neighbours_cons_head R c s :
  (forall x, head s = Some x -> R c x) -> neighbours R s -> neighbours R (c :: s).
Proof.
  intros Hhd Hn l1 a b l2 Heq. destruct l1 as [|e l1].
  - injection Heq as -> ->. by apply Hhd.
  - injection Heq as -> ->. by apply (Hn l1 a b l2).
Qed.

Lemma neighbours_head R c d s : neighbours R (c :: d :: s) -> R c d.
Proof. intros Hn. by apply (Hn [] c d s). Qed.

Lemma neighbours_infix R l1 s l2 : neighbours R (l1 ++ s ++ l2) -> neighbours R s.
Proof.
  intros Hn k1 a b k2 ->. apply (Hn (l1 ++ k1) a b (k2 ++ l2)).
  by rewrite <- !app_assoc.
Qed.

Lemma neighbours_snoc R s c :
  neighbours R s -> (forall b, last s = Some b -> R b c) -> neighbours R (s ++ [c]).
Proof.
  induction s as [|a s IH]; intros Hn Hlast.
  { simpl. apply neighbours_cons_head; [done|apply neighbours_nil]. }
  simpl. apply neighbours_cons_head.
  - destruct s as [|b s]; simpl.
    + intros x [= <-]. by apply Hlast.
    + intros x [= <-]. by apply neighbours_head in Hn.
  - apply IH; [by apply neighbours_tail in Hn|].
    intros b Hb. apply Hlast. destruct s; [done|]. by rewrite last_cons_cons.
Qed.

(** ** Stripping *)

Lemma dropwhile_suffix p s : exists l, s = l ++ dropwhile p s.
Proof.
  induction s as [|c t [l IH]]; [by exists []|]. simpl.
  destruct (p c); [|by exists []].
  exists (c :: l). simpl. by f_equal.
Qed.

Lemma dropwhile_head s c :
  head (dropwhile isspace s) = Some c -> isspace c = false.
Proof.
  induction s as [|a t IH]; [done|]. simpl.
  destruct (isspace a) eqn:Ha; [done|]. by intros [= <-].
Qed.

Lemma dropwhile_id s :
  (forall c, head s = Some c -> isspace c = false) -> dropwhile isspace s = s.
Proof. destruct s as [|a t]; [done|]. simpl. intros Hhd. by rewrite Hhd. Qed.

(** [s.strip()] is a slice of [s]. *)
Lemma strip_infix s : exists l1 l2, s = l1 ++ strip s ++ l2.
Proof.
  unfold strip, rstrip, lstrip.
  destruct (dropwhile_suffix isspace s) as [l1 H1].
  destruct (dropwhile_suffix isspace (reverse (dropwhile isspace s))) as [l2 H2].
  exists l1, (reverse l2). rewrite <- reverse_app, <- H2, reverse_involutive.
  exact H1.
Qed.

Lemma strip_head s c : head (strip s) = Some c -> isspace c = false.
Proof.
  unfold strip, rstrip, lstrip. set (y := dropwhile isspace s).
  destruct (dropwhile_suffix isspace (reverse y)) as [l Hl].
  intros Hhd.
  assert (Hy : y = reverse (dropwhile isspace (reverse y)) ++ reverse l).
  { by rewrite <- reverse_app, <- Hl, reverse_involutive. }
  apply (dropwhile_head s). fold y. rewrite Hy.
  destruct (reverse (dropwhile isspace (reverse y))); [done|exact Hhd].
Qed.

Lemma strip_last s c : last (strip s) = Some c -> isspace c = false.
Proof.
  unfold strip, rstrip. rewrite last_reverse. apply dropwhile_head.
Qed.

Lemma strip_id s :
  (forall c, head s = Some c -> isspace c = false) ->
  (forall c, last s = Some c -> isspace c = false) ->
  strip s = s.
Proof.
  intros Hhd Hlast. unfold strip, rstrip, lstrip.
  rewrite (dropwhile_id s) by done.
  rewrite dropwhile_id; [apply reverse_involutive|].
  intros c. rewrite head_reverse. apply Hlast.
Qed.

(** Stripping twice is stripping once. *)
Lemma strip_strip s : strip (strip s) = strip s.
Proof. apply strip_id; [apply strip_head|apply strip_last]. Qed.

Lemma isspace_not_terminal c : isspace c = true -> Re.is_terminal c = false.
Proof.
  intros Hc. unfold Re.is_terminal.
  repeat case_bool_decide; subst; try done.
Qed.

(** ** Collapsing white space *)

Lemma sub_from_spaces b s :
  Forall (fun c => isspace c = true -> c = SP) (Re.sub_from b s).
Proof.
  revert b. induction s as [|c t IH]; intros b; simpl; [constructor|].
  destruct (isspace c) eqn:Hc.
  - destruct b; [apply IH|]. constructor; [done|apply IH].
  - constructor; [congruence|apply IH].
Qed.

Lemma sub_from_single b s :
  neighbours (fun c d => ~ double_space c d) (Re.sub_from b s)
  /\ (b = true -> forall x, head (Re.sub_from b s) = Some x -> isspace x = false).
Proof.
  revert b. induction s as [|c t IH]; intros b; simpl.
  { split; [apply neighbours_nil|done]. }
  destruct (isspace c) eqn:Hc.
  - destruct b; [apply IH|]. split; [|done].
    destruct (IH true) as [Hn Hhd]. apply neighbours_cons_head; [|done].
    intros x Hx [_ Hsp]. by rewrite (Hhd eq_refl x Hx) in Hsp.
  - split.
    + apply neighbours_cons_head; [|apply IH].
      intros x _ [Hsp _]. congruence.
    + intros _ x [= <-]. done.
Qed.

(** A text whose white space is made of single spaces is left as it is. *)
Lemma sub_from_id b s :
  Forall (fun c => isspace c = true -> c = SP) s ->
  neighbours (fun c d => ~ double_space c d) s ->
  (b = true -> forall x, head s = Some x -> isspace x = false) ->
  Re.sub_from b s = s.
Proof.
  revert b. induction s as [|c t IH]; intros b Hsp Hn Hb; [done|]. simpl.
  apply Forall_cons in Hsp as [Hc Hsp].
  destruct (isspace c) eqn:Hcs.
  - destruct b; [by rewrite (Hb eq_refl c) in Hcs|].
    rewrite Hc by done. f_equal. apply IH; [done|by apply neighbours_tail in Hn|].
    intros _ x Hx. destruct t as [|d t]; [done|]. injection Hx as ->.
    apply neighbours_head in Hn.
    destruct (isspace x) eqn:Hxs; [|done]. by destruct Hn.
  - f_equal. apply IH; [done|by apply neighbours_tail in Hn|done].
Qed.

Lemma sub_from_no_LF b s : LF ∉ Re.sub_from b s.
Proof.
  intros Hin. pose proof (sub_from_spaces b s) as Hsp.
  eapply Forall_forall in Hsp; [|done]. by specialize (Hsp eq_refl).
Qed.

Lemma sub_from_unbroken_after a b s :
  neighbours (fun c d => ~ boundary c d) (a :: s) ->
  (b = true -> isspace a = true) ->
  neighbours (fun c d => ~ boundary c d) (a :: Re.sub_from b s).
Proof.
  revert a b. induction s as [|c t IH]; intros a b Hn Hb; simpl.
  { apply neighbours_cons_head; [done|apply neighbours_nil]. }
  pose proof (neighbours_head _ _ _ _ Hn) as Hac.
  pose proof (neighbours_tail _ _ _ Hn) as Hct.
  destruct (isspace c) eqn:Hc.
  - assert (Hsp : forall x, neighbours (fun c d => ~ boundary c d) (x :: t) ->
                    isspace x = true ->
                    neighbours (fun c d => ~ boundary c d) (x :: Re.sub_from true t)).
    { intros x Hx Hxs. by apply IH. }
    assert (Hfree : forall x, isspace x = true ->
                      neighbours (fun c d => ~ boundary c d) (x :: t)).
    { intros x Hxs. apply neighbours_cons_head; [|by apply neighbours_tail in Hct].
      intros y _ [Hterm _]. by rewrite isspace_not_terminal in Hterm. }
    destruct b.
    + apply Hsp; [|by apply Hb]. apply Hfree. by apply Hb.
    + apply neighbours_cons_head.
      * intros x [= <-] [Hterm _]. apply Hac. by split.
      * apply Hsp; [by apply Hfree|done].
  - apply neighbours_cons_head.
    + by intros x [= <-].
    + by apply IH.
Qed.

Lemma sub_spaces_unbroken s : unbroken s -> unbroken (Re.sub_spaces s).
Proof.
  intros [_ Hn]. split; [apply sub_from_no_LF|].
  apply (neighbours_tail _ SP), sub_from_unbroken_after; [|done].
  apply neighbours_cons_head; [|done].
  intros x _ [Hterm _]. done.
Qed.

Lemma strip_unbroken s : unbroken s -> unbroken (strip s).
Proof.
  intros [Hlf Hn]. destruct (strip_infix s) as (l1 & l2 & Hs). split.
  - intros Hin. apply Hlf. rewrite Hs, !elem_of_app. tauto.
  - rewrite Hs in Hn. by apply neighbours_infix in Hn.
Qed.

(** ** The pieces of the split hold no place that the pattern matches *)

Lemma match_len_zero prev c t :
  Re.match_len prev (c :: t) = 0 ->
  c <> LF /\ (forall b, prev = Some b -> ~ boundary b c).
Proof.
  unfold Re.match_len, Re.alt_terminal_spaces, Re.alt_newlines. intros Hm. split.
  - intros ->. destruct prev as [b|]; [destruct (Re.is_terminal b)|]; simpl in Hm;
      try done.
  - intros b -> [Hb Hc]. rewrite Hb in Hm. simpl in Hm. by rewrite Hc in Hm.
Qed.

Lemma split_from_unbroken skip prev cur s :
  unbroken (reverse cur) ->
  (skip <> 0 -> cur = []) ->
  (skip = 0 -> forall c, head cur = Some c -> prev = Some c) ->
  Forall unbroken (Re.split_from skip prev cur s).
Proof.
  revert skip prev cur. induction s as [|c t IH]; intros skip prev cur Hcur Hskip Hprev.
  { simpl. by constructor. }
  destruct skip as [|k]; cbn [Re.split_from].
  - destruct (Re.match_len prev (c :: t)) as [|k] eqn:Hm.
    + apply match_len_zero in Hm as [Hlf Hb]. apply IH; [|done|by intros _ x [= <-]].
      rewrite reverse_cons. destruct Hcur as [Hnl Hn]. split.
      * rewrite not_elem_of_app, list_elem_of_singleton. split; [done|congruence].
      * apply neighbours_snoc; [done|]. intros b. rewrite last_reverse.
        intros Hhd. apply Hb, Hprev; done.
    + constructor; [done|]. apply IH; [|done|done].
      split; [apply not_elem_of_nil|apply neighbours_nil].
  - rewrite (Hskip ltac:(done)). apply IH; [|done|done].
    split; [apply not_elem_of_nil|apply neighbours_nil].
Qed.

Lemma split_unbroken raw : Forall unbroken (Re.split raw).
Proof.
  apply split_from_unbroken; [|done|done].
  split; [apply not_elem_of_nil|apply neighbours_nil].
Qed.

(** A text that the pattern matches nowhere is not split. *)
Lemma split_from_whole prev cur s :
  unbroken s ->
  (forall b c, prev = Some b -> head s = Some c -> ~ boundary b c) ->
  Re.split_from 0 prev cur s = [reverse cur ++ s].
Proof.
  revert prev cur. induction s as [|c t IH]; intros prev cur [Hlf Hn] Hprev.
  { simpl. by rewrite app_nil_r. }
  cbn [Re.split_from].
  assert (Hm : Re.match_len prev (c :: t) = 0).
  { unfold Re.match_len, Re.alt_terminal_spaces, Re.alt_newlines.
    assert (Hnl : Re.span_len Re.is_newline (c :: t) = 0).
    { simpl. unfold Re.is_newline. rewrite bool_decide_eq_false_2; [done|].
      intros ->. apply Hlf. by left. }
    destruct prev as [b|]; [|done].
    destruct (Re.is_terminal b) eqn:Hb; [|done].
    simpl. destruct (isspace c) eqn:Hc; [|done].
    by destruct (Hprev b c eq_refl eq_refl). }
  rewrite Hm, IH.
  - by rewrite reverse_cons, <- app_assoc.
  - split; [by apply not_elem_of_cons in Hlf as [_ ?]|by apply neighbours_tail in Hn].
  - intros b d [= <-] Hd. destruct t as [|e t]; [done|]. injection Hd as ->.
    by apply neighbours_head in Hn.
Qed.

(** ** Newline normalisation *)

Lemma replace_cr_no_CR s : CR ∉ replace_cr s.
Proof.
  unfold replace_cr. intros (c & Hc & _)%list_elem_of_fmap.
  by case_bool_decide.
Qed.

Lemma replace_cr_fixed s : CR ∉ s -> replace_cr s = s.
Proof.
  induction s as [|c t IH]; [done|]. intros [Hc Ht]%not_elem_of_cons.
  unfold replace_cr. rewrite fmap_cons. fold (replace_cr t).
  rewrite bool_decide_eq_false_2 by congruence. by rewrite IH.
Qed.

Lemma replace_crlf_fixed s : CR ∉ s -> replace_crlf s = s.
Proof.
  induction s as [|c t IH]; [done|]. intros [Hc Ht]%not_elem_of_cons.
  destruct t as [|d t]; [done|].
  change (replace_crlf (c :: d :: t))
    with (if bool_decide (c = CR) && bool_decide (d = LF)
          then LF :: replace_crlf t else c :: replace_crlf (d :: t)).
  rewrite (bool_decide_eq_false_2 (c = CR)) by congruence. simpl andb. cbv iota.
  by rewrite IH.
Qed.

Lemma normalize_fixed s : CR ∉ s -> normalize_newlines s = s.
Proof.
  intros Hs. unfold normalize_newlines.
  by rewrite replace_crlf_fixed, replace_cr_fixed.
Qed.

(** X9. After the normalisation of line 194 the text has no carriage
    return, and normalising again changes nothing. *)
Theorem normalize_newlines_no_CR (doc_text : str) :
  (CR ∉ normalize_newlines doc_text)
  /\ normalize_newlines (normalize_newlines doc_text) = normalize_newlines doc_text.
Proof.
  assert (Hcr : CR ∉ normalize_newlines doc_text) by apply replace_cr_no_CR.
  split; [done|by apply normalize_fixed].
Qed.

(** ** The units *)

Lemma spaces_infix (l1 s l2 : str) :
  Forall (fun c => isspace c = true -> c = SP) (l1 ++ s ++ l2) ->
  Forall (fun c => isspace c = true -> c = SP) s.
Proof. by intros [_ [? _]%Forall_app]%Forall_app. Qed.

Lemma sentence_normal p :
  kept p ->
  let s := strip (Re.sub_spaces p) in
  s <> [] /\ strip s = s /\ Re.sub_spaces s = s
  /\ Forall (fun c => isspace c = true -> c = SP) s.
Proof.
  intros Hp%kept_iff. simpl.
  destruct (strip_infix (Re.sub_spaces p)) as (l1 & l2 & Hs).
  assert (Hsp : Forall (fun c => isspace c = true -> c = SP)
                  (strip (Re.sub_spaces p))).
  { apply (spaces_infix l1 _ l2). rewrite <- Hs. apply sub_from_spaces. }
  split_and!; [|apply strip_strip| |done].
  - rewrite strip_nil_iff. unfold Re.sub_spaces.
    by rewrite nonspaces_sub_from.
  - apply sub_from_id; [done| |done].
    apply (neighbours_infix _ l1 _ l2). rewrite <- Hs. apply sub_from_single.
Qed.

Lemma split_sentences_normal raw s :
  s ∈ split_sentences raw ->
  s <> [] /\ strip s = s /\ Re.sub_spaces s = s
  /\ Forall (fun c => isspace c = true -> c = SP) s.
Proof.
  unfold split_sentences.
  intros (p & -> & [Hp _]%list_elem_of_filter)%list_elem_of_fmap.
  by apply sentence_normal.
Qed.

(** X1. Every sentence of the comprehension of line 197 is in normal form:
    it is not empty, stripping it or collapsing its white space again
    changes nothing, and its only white space characters are single
    spaces (no newline, no tab). *)
Theorem sentences_normal_form (raw : str) :
  Forall (fun s => s <> [] /\ strip s = s /\ Re.sub_spaces s = s
                   /\ Forall (fun c => isspace c = true -> c = SP) s)
    (split_sentences raw).
Proof.
  apply Forall_forall. intros s Hs.
  destruct (split_sentences_normal raw s Hs) as (Hne & Hstrip & Hsub & Hsp).
  split_and!; done.
Qed.

Lemma mjoin_cons (x : str) (l : list str) : mjoin (x :: l) = x ++ mjoin l.
Proof. done. Qed.

Lemma mjoin_nonspaces_kept (parts : list str) :
  mjoin (nonspaces <$> ((fun p => strip (Re.sub_spaces p)) <$> filter kept parts))
  = mjoin (nonspaces <$> parts).
Proof.
  induction parts as [|p parts IH]; [done|].
  rewrite (fmap_cons nonspaces p), mjoin_cons.
  destruct (decide (kept p)) as [Hp|Hp].
  - rewrite filter_cons_True by done. rewrite !fmap_cons, mjoin_cons.
    rewrite IH, nonspaces_strip. unfold Re.sub_spaces.
    by rewrite nonspaces_sub_from.
  - rewrite filter_cons_False by done. rewrite IH.
    rewrite kept_iff in Hp. apply dec_stable in Hp. by rewrite Hp.
Qed.

Lemma split_sentences_nonspaces raw :
  mjoin (nonspaces <$> split_sentences raw) = nonspaces raw.
Proof. unfold split_sentences. by rewrite mjoin_nonspaces_kept, nonspaces_split. Qed.

Lemma segment_nonspaces raw : mjoin (nonspaces <$> segment raw) = nonspaces raw.
Proof.
  pose proof (split_sentences_nonspaces raw) as Hsplit.
  unfold segment. destruct (split_sentences raw) as [|s l] eqn:Hs; [|done].
  simpl in Hsplit. symmetry in Hsplit.
  rewrite (fmap_cons nonspaces), mjoin_cons. simpl. rewrite app_nil_r, Hsplit.
  apply nonspaces_nil_iff. apply nonspaces_nil_iff in Hsplit.
  by apply Forall_take.
Qed.

(** X2. The segmenter only drops white space: the characters of the stored
    text that are not white space are those of the sentences, in the same
    order, whether the fallback is taken or not. *)
Theorem segment_keeps_text (doc_text : str) :
  mjoin (nonspaces <$> split_sentences (normalize_newlines doc_text))
  = nonspaces doc_text
  /\ mjoin (nonspaces <$> segment (normalize_newlines doc_text))
     = nonspaces doc_text.
Proof.
  split.
  - by rewrite split_sentences_nonspaces, nonspaces_normalize.
  - by rewrite segment_nonspaces, nonspaces_normalize.
Qed.

Lemma sentence_unbroken raw s : s ∈ split_sentences raw -> unbroken s.
Proof.
  unfold split_sentences.
  intros (p & -> & [_ Hp]%list_elem_of_filter)%list_elem_of_fmap.
  apply strip_unbroken, sub_spaces_unbroken.
  pose proof (split_unbroken raw) as Hall.
  by eapply Forall_forall in Hall.
Qed.

Lemma split_sentences_fixed s :
  s <> [] -> strip s = s -> Re.sub_spaces s = s -> unbroken s ->
  split_sentences s = [s].
Proof.
  intros Hne Hstrip Hsub Hun. unfold split_sentences, Re.split.
  rewrite split_from_whole by done. rewrite reverse_nil, app_nil_l.
  rewrite filter_cons_True, filter_nil.
  - rewrite fmap_cons. simpl. by rewrite Hsub, Hstrip.
  - split; [done|by rewrite Hstrip].
Qed.

(** X3. No sentence holds a place where the pattern of the segmenter matches
    (a newline, or a terminal mark followed by white space), so that the
    segmenter applied to a sentence returns that sentence alone. *)
Theorem sentences_are_units (raw : str) :
  Forall (fun s => unbroken s /\ segment (normalize_newlines s) = [s])
    (split_sentences raw).
Proof.
  apply Forall_forall. intros s Hs.
  pose proof (sentence_unbroken raw s Hs) as Hun.
  destruct (split_sentences_normal raw s Hs) as (Hne & Hstrip & Hsub & Hsp).
  split; [done|].
  rewrite normalize_fixed.
  - rewrite segment_split_sentences; rewrite split_sentences_fixed; done.
  - intros Hcr. eapply Forall_forall in Hsp; [|done]. by specialize (Hsp eq_refl).
Qed.

(** * Further properties of the answer *)

Lemma elem_of_zip_gather (a : list Q) (l : list nat) idx score :
  (idx, score) ∈ zip l (gather a l) <-> idx ∈ l /\ score = nth idx a 0%Q.
Proof.
  unfold gather. induction l as [|i l IH]; simpl.
  { split; [by intros ?%not_elem_of_nil|by intros [?%not_elem_of_nil _]]. }
  rewrite !elem_of_cons, IH. split.
  - intros [[= -> ->]|[? ?]]; [by split; [left|]|by split; [right|]].
  - intros [[->|?] ->]; [by left|by right].
Qed.

Lemma elem_of_qualifying (sentences : list str) (pairs : list (nat * Q)) u :
  u ∈ qualifying sentences pairs <->
  exists idx score, (idx, score) ∈ pairs
    /\ (score_threshold <= score)%Q /\ sentences !! idx = Some u.
Proof.
  unfold qualifying. rewrite list_elem_of_omap. split.
  - intros ([idx score] & Hin & Hq). simpl in Hq.
    destruct (Qltb score score_threshold) eqn:Hlt; [done|].
    apply Qltb_ge in Hlt. eauto.
  - intros (idx & score & Hin & Hle & Hu). exists (idx, score).
    split; [done|]. simpl. apply Qltb_ge in Hle. by rewrite Hle.
Qed.

Lemma length_qualifying (sentences : list str) (pairs : list (nat * Q)) :
  length (qualifying sentences pairs) <= length pairs.
Proof.
  unfold qualifying. induction pairs as [|p pairs IH]; csimpl; [done|].
  destruct (Qltb p.2 score_threshold); [lia|].
  destruct (sentences !! p.1); csimpl; lia.
Qed.

Lemma length_accept (units accepted : list str) :
  length (accept units accepted) <= length accepted + length units.
Proof.
  revert accepted. induction units as [|u units IH]; intros accepted; simpl.
  { lia. }
  case_bool_decide.
  - specialize (IH accepted). lia.
  - specialize (IH (accepted ++ [strip u])). rewrite length_app in IH.
    simpl in IH. lia.
Qed.

Section AnswerFacts.
Context `{Sklearn} `{Numpy}.

Lemma length_matched_texts (sentences : list str) (sims : list Q) :
  length (matched_texts sentences sims) <= 3.
Proof.
  unfold matched_texts.
  etrans; [apply length_accept|]. simpl.
  etrans; [apply length_qualifying|].
  rewrite length_zip, ranked_idx_length. unfold top_k. lia.
Qed.

(** X4. The answer is extractive: the accepted texts are exactly the
    sentences of the document at the ranked indexes whose score is at
    least 0.20, verbatim; there are between one and three of them. *)
Theorem answer_extractive (doc_text question text : str) :
  answer_question doc_text question = Answered text ->
  exists sims,
    let sentences := segment (normalize_newlines doc_text) in
    let matched := matched_texts sentences sims in
    similarities (lower <$> sentences) (lower question) = Ok sims
    /\ text = take 1200 (join [SP] matched)
    /\ 0 < length matched <= 3
    /\ (forall x, x ∈ matched <->
          exists i, i ∈ ranked_idx sims /\ (20 # 100 <= nth i sims 0)%Q
                    /\ sentences !! i = Some x).
Proof.
  intros (Hdoc & sims & Hsims & _ & Hne & ->)%answered_inv.
  exists sims. simpl. split_and!; [done|done| |apply length_matched_texts|].
  { destruct (matched_texts _ sims); simpl; [done|lia]. }
  pose proof (nonblank_normalize _ Hdoc) as Hraw.
  rewrite (segment_split_sentences _ (split_sentences_nonempty _ Hraw)).
  intros x. unfold matched_texts. rewrite accept_elem. split.
  - intros [?%not_elem_of_nil|(Hx & u & Hu & <-)]; [done|].
    apply elem_of_qualifying in Hu as (i & score & Hin & Hle & Hu).
    apply elem_of_zip_gather in Hin as [Hi ->]. exists i.
    destruct (split_sentences_normal _ u (list_elem_of_lookup_2 _ _ _ Hu))
      as (_ & -> & _).
    done.
  - intros (i & Hi & Hle & Hx). right.
    destruct (split_sentences_normal _ x (list_elem_of_lookup_2 _ _ _ Hx))
      as (Hne' & Hstrip & _).
    split; [done|]. exists x. split; [|done].
    apply elem_of_qualifying. exists i, (nth i sims 0%Q).
    split_and!; [|done|done]. by apply elem_of_zip_gather.
Qed.

Lemma matched_texts_head (sentences : list str) (sims : list Q) :
  length sims = length sentences ->
  Forall (fun s => strip s <> []) sentences ->
  below_threshold (top_scores sims) = false ->
  exists i0 s0 rest,
    head (ranked_idx sims) = Some i0 /\ sentences !! i0 = Some s0
    /\ matched_texts sentences sims = strip s0 :: rest.
Proof.
  intros Hlen Hsolid Hpassed. unfold matched_texts.
  pose proof (elem_of_ranked_idx sims) as Hrange.
  unfold top_scores, gather in *.
  destruct (ranked_idx sims) as [|idx rest]; [done|].
  rewrite fmap_cons in *. cbn [below_threshold] in Hpassed.
  unfold qualifying. cbn [zip zip_with omap list_omap fst snd]. rewrite Hpassed.
  assert (Hidx : idx < length sentences).
  { rewrite <- Hlen. apply Hrange. by left. }
  apply lookup_lt_is_Some_2 in Hidx as [s Hs]. rewrite Hs.
  assert (Hne : strip s <> []).
  { eapply Forall_forall in Hsolid; [done|]. by eapply list_elem_of_lookup_2. }
  cbn [accept]. rewrite bool_decide_eq_false_2.
  - match goal with |- context [accept ?u ?acc] =>
      destruct (accept_prefix u acc) as [k ->] end.
    exists idx, s, k. done.
  - intros [?|?%not_elem_of_nil]; done.
Qed.

Lemma join_cons_app (sep x : str) (l : list str) :
  exists r, join sep (x :: l) = x ++ r.
Proof. destruct l; simpl; [exists []; by rewrite app_nil_r|eauto]. Qed.

(** X5. The answer starts with the best sentence: the first ranked unit has
    the highest score of all, and its text (cut at 1200 characters) is
    the beginning of the answer, which is therefore not empty. *)
Theorem answer_starts_with_best (doc_text question text : str) :
  answer_question doc_text question = Answered text ->
  exists sims i0 s0,
    let sentences := segment (normalize_newlines doc_text) in
    similarities (lower <$> sentences) (lower question) = Ok sims
    /\ head (ranked_idx sims) = Some i0
    /\ Forall (fun s => (s <= nth i0 sims 0)%Q) sims
    /\ sentences !! i0 = Some s0
    /\ take 1200 s0 `prefix_of` text
    /\ text <> [].
Proof.
  intros (Hdoc & sims & Hsims & Hpassed & _ & ->)%answered_inv.
  assert (Hlen : length sims = length (segment (normalize_newlines doc_text))).
  { apply similarities_length in Hsims. by rewrite length_fmap in Hsims. }
  destruct (matched_texts_head _ sims Hlen (segment_solid _ Hdoc) Hpassed)
    as (i0 & s0 & rest & Hhd & Hs0 & Hm).
  assert (Hstrip : s0 <> [] /\ strip s0 = s0).
  { pose proof (nonblank_normalize _ Hdoc) as Hraw.
    rewrite (segment_split_sentences _ (split_sentences_nonempty _ Hraw)) in Hs0.
    by destruct (split_sentences_normal _ s0 (list_elem_of_lookup_2 _ _ _ Hs0))
      as (Hne & Hst & _). }
  destruct Hstrip as [Hne Hstrip].
  assert (Hpre : take 1200 s0 `prefix_of`
                   take 1200 (join [SP] (matched_texts
                     (segment (normalize_newlines doc_text)) sims))).
  { rewrite Hm, Hstrip. destruct (join_cons_app [SP] s0 rest) as [r ->].
    rewrite take_app. by eexists. }
  exists sims, i0, s0. simpl. split_and!; [done|done| |done|done|].
  - apply top_scores_head_max. unfold top_scores, gather.
    rewrite !head_lookup, list_lookup_fmap in *. by rewrite Hhd.
  - intros Hnil. rewrite Hnil in Hpre. apply prefix_nil_inv in Hpre.
    by destruct s0.
Qed.

(** X6. The answer does not depend on the letter case of the question nor
    on the white space around it: two questions with the same stripped,
    lower-cased text get the same response. *)
Theorem question_case_insensitive (q1 q2 doc_text : str) :
  lower (strip q1) = lower (strip q2) ->
  ask_question q1 doc_text = ask_question q2 doc_text.
Proof.
  intros Hq. unfold ask_question.
  assert (Hnil : strip q1 = [] <-> strip q2 = []).
  { apply (f_equal length) in Hq. unfold lower in Hq. rewrite !length_fmap in Hq.
    split; intros Hn; rewrite Hn in Hq; simpl in Hq.
    - by destruct (strip q2).
    - by destruct (strip q1). }
  destruct (decide (strip q1 = [])) as [H1|H1].
  - rewrite !bool_decide_eq_true_2; tauto.
  - rewrite !bool_decide_eq_false_2 by tauto.
    unfold answer_question, try_body. by rewrite Hq.
Qed.

End AnswerFacts.

Example split_sentences_two :
  split_sentences (lit "  One.  Two? ") = [lit "One."; lit "Two?"].
Proof. reflexivity. Qed.

Lemma answer_extractive_witness :
  @answer_question (scripted (Ok [1 # 2; 1 # 10; 1 # 2; 3 # 10])) insertion_numpy
    twice_doc (lit "one") = Answered (lit "One. Three.")
  /\ exists sims,
       0 < length (@matched_texts insertion_numpy
                     (segment (normalize_newlines twice_doc)) sims) <= 3.
Proof.
  assert (Hans : @answer_question (scripted (Ok [1 # 2; 1 # 10; 1 # 2; 3 # 10]))
    insertion_numpy twice_doc (lit "one") = Answered (lit "One. Three."))
    by (vm_compute; reflexivity).
  split; [exact Hans|].
  destruct (@answer_extractive (scripted (Ok [1 # 2; 1 # 10; 1 # 2; 3 # 10]))
              insertion_numpy twice_doc (lit "one") (lit "One. Three.") Hans)
    as (sims & _ & _ & Hlen & _).
  exists sims. exact Hlen.
Defined.

Lemma answer_starts_with_best_witness :
  @answer_question (scripted (Ok [1 # 5; 3 # 10])) insertion_numpy
    sky_doc sky_question = Answered (lit "Water is wet. The sky is blue.")
  /\ exists s0, take 1200 s0 `prefix_of` lit "Water is wet. The sky is blue.".
Proof.
  assert (Hans : @answer_question (scripted (Ok [1 # 5; 3 # 10])) insertion_numpy
    sky_doc sky_question = Answered (lit "Water is wet. The sky is blue."))
    by (vm_compute; reflexivity).
  split; [exact Hans|].
  destruct (@answer_starts_with_best (scripted (Ok [1 # 5; 3 # 10])) insertion_numpy
              sky_doc sky_question _ Hans)
    as (sims & i0 & s0 & _ & _ & _ & _ & Hpre & _).
  exists s0. exact Hpre.
Defined.

Lemma question_case_insensitive_witness :
  lower (strip (lit "  What COLOR is the Sky ")) = lower (strip sky_question)
  /\ @ask_question (scripted (Ok [1 # 2; 1 # 10])) insertion_numpy
       (lit "  What COLOR is the Sky ") sky_doc
     = @ask_question (scripted (Ok [1 # 2; 1 # 10])) insertion_numpy
         sky_question sky_doc.
Proof.
  assert (Hq : lower (strip (lit "  What COLOR is the Sky "))
               = lower (strip sky_question)) by reflexivity.
  split; [exact Hq|].
  apply (@question_case_insensitive (scripted (Ok [1 # 2; 1 # 10])) insertion_numpy
           _ _ sky_doc Hq).
Defined.

(** * Properties of the rest of the application *)

(** ** Text extraction *)





(** ** The table of users *)

Lemma select_user_app t1 t2 u :
  select_user (t1 ++ t2) u
  = match select_user t1 u with
    | Some row => Some row
    | None => select_user t2 u
    end.
Proof.
  induction t1 as [|row t1 IH]; [done|]. simpl.
  by case_bool_decide.
Qed.

Lemma select_user_Some t u row :
  select_user t u = Some row -> row ∈ t /\ row_username row = u.
Proof.
  induction t as [|r t IH]; [done|]. simpl. case_bool_decide as Hr.
  - intros [= <-]. split; [by left|done].
  - intros [Hin Hu]%IH. split; [by right|done].
Qed.



Lemma insert_user_Some t u p t' :
  insert_user t u p = Some t' ->
  select_user t u = None
  /\ t' = t ++ [{| row_id := next_id t; row_username := u; row_password := p |}].
Proof.
  unfold insert_user. destruct (select_user t u); [done|]. by intros [= <-].
Qed.

Section Application.
Context `{Sklearn} `{Numpy} `{Formats} `{Werkzeug}.

(** A request changes the table only through a successful insertion of
    [signup]. *)
Lemma handle_users st sess req :
  users (out_state (handle st sess req)) = users st
  \/ exists form salt,
       req = SignUp POST form salt
       /\ insert_user (users st) (form_field form "username")
            (generate_password_hash salt (form_field form "password"))
          = Some (users (out_state (handle st sess req))).
Proof.
  destruct req as [|m form salt|m form| | |files|data| |path]; simpl;
    try (by left).
  - unfold signup. destruct m; [by left|].
    case_bool_decide; [by left|].
    destruct (insert_user _ _ _) as [t'|] eqn:Hins; [|by left].
    right. eauto.
  - unfold signin. destruct m; [by left|].
    destruct (select_user _ _); [|by left].
    destruct (check_password_hash _ _); by left.
  - unfold login_required. by case_bool_decide; left.
  - unfold login_required, upload_file. case_bool_decide; [|by left].
    destruct (files !! "file"); [|by left].
    case_bool_decide; [by left|]. case_bool_decide; [by left|].
    destruct (sess !! "username"); [|by left].
    case_bool_decide; by left.
  - unfold login_required, ask. case_bool_decide; [|by left].
    case_bool_decide.
    + destruct (ask_question _ _). by left.
    + destruct (sess !! "username"); [|by left].
      destruct (load_extracted_text_for_user _ _); [|by left].
      destruct (ask_question _ _). by left.
Qed.


(** ** Sessions *)


Lemma session_ok_grows st st' sess :
  users st `prefix_of` users st' -> session_ok st sess -> session_ok st' sess.
Proof.
  intros [k Hk] Hok Hsome. destruct (Hok Hsome) as (row & Hrow & Hid & Hname).
  exists row. split_and!; [|done|done]. rewrite Hk, elem_of_app. by left.
Qed.

Lemma handle_prefix st sess req :
  users st `prefix_of` users (out_state (handle st sess req)).
Proof.
  destruct (handle_users st sess req) as [->|(form & salt & _ & Hins)]; [done|].
  apply insert_user_Some in Hins as [_ ->]. by apply prefix_app_r.
Qed.

Lemma handle_session st sess req :
  out_session (handle st sess req) = sess
  \/ out_session (handle st sess req) = ∅
  \/ exists row, row ∈ users st
       /\ out_session (handle st sess req)
          = <["username" := VStr (row_username row)]>
              (<["user_id" := VInt (row_id row)]> sess).
Proof.
  destruct req as [|m form salt|m form| | |files|data| |path]; simpl;
    try (by left).
  - unfold signup. destruct m; [by left|].
    case_bool_decide; [by left|]. by destruct (insert_user _ _ _); left.
  - unfold signin. destruct m; [by left|].
    destruct (select_user _ _) as [row|] eqn:Hrow; [|by left].
    destruct (check_password_hash _ _) eqn:Hcheck; [|by left].
    right. right. exists row. simpl.
    apply select_user_Some in Hrow as [Hin ->]. done.
  - right. by left.
  - unfold login_required. by case_bool_decide; left.
  - unfold login_required, upload_file. case_bool_decide; [|by left].
    destruct (files !! "file"); [|by left].
    case_bool_decide; [by left|]. case_bool_decide; [by left|].
    destruct (sess !! "username"); [|by left].
    case_bool_decide; by left.
  - unfold login_required, ask. case_bool_decide; [|by left].
    case_bool_decide.
    + destruct (ask_question _ _). by left.
    + destruct (sess !! "username"); [|by left].
      destruct (load_extracted_text_for_user _ _); [|by left].
      destruct (ask_question _ _). by left.
Qed.

Lemma handle_session_ok st sess req :
  session_ok st sess ->
  session_ok (out_state (handle st sess req)) (out_session (handle st sess req)).
Proof.
  intros Hok. pose proof (handle_prefix st sess req) as Hpre.
  destruct (handle_session st sess req) as [->|[->|(row & Hrow & ->)]].
  - by eapply session_ok_grows.
  - intros Hsome. by apply lookup_empty_is_Some in Hsome.
  - intros _. exists row. destruct Hpre as [k ->].
    rewrite elem_of_app, lookup_insert_eq, lookup_insert_ne, lookup_insert_eq by done.
    split_and!; [by left|done|done].
Qed.

Lemma handle_no_key_error st sess req :
  session_ok st sess -> out_response (handle st sess req) <> Crash "KeyError".
Proof.
  intros Hok.
  destruct req as [|m form salt|m form| | |files|data| |path]; simpl; try done.
  - unfold home. by case_bool_decide.
  - unfold signup. destruct m; [done|].
    case_bool_decide; [done|]. by destruct (insert_user _ _ _).
  - unfold signin. destruct m; [done|].
    destruct (select_user _ _); [|done]. by destruct (check_password_hash _ _).
  - unfold login_required. by case_bool_decide.
  - unfold login_required, upload_file. case_bool_decide as Hin; [|done].
    destruct (Hok Hin) as (row & _ & _ & ->).
    destruct (files !! "file"); [|done].
    case_bool_decide; [done|]. case_bool_decide; [done|].
    by case_bool_decide.
  - unfold login_required, ask. case_bool_decide as Hin; [|done].
    destruct (Hok Hin) as (row & _ & _ & ->).
    case_bool_decide.
    + by destruct (ask_question _ _).
    + destruct (load_extracted_text_for_user _ _); [|done].
      by destruct (ask_question _ _).
Qed.

(** X10. Whatever requests the clients send and in whatever order, starting
    with no session: the session of every client stays well formed (when
    it has the key [user_id] it has the key [username], and both are those
    of a row of the table), so that no view fails on [session["username"]]
    with a [KeyError]. *)
Theorem sessions_well_formed (st : state) (reqs : list (nat * request)) :
  forall st' sessions' replies,
    serve st ∅ reqs = (st', sessions', replies) ->
    (forall client sess, sessions' !! client = Some sess -> session_ok st' sess)
    /\ Crash "KeyError" ∉ replies.
Proof.
  assert (Hgen : forall reqs st sessions st' sessions' replies,
    (forall client sess, sessions !! client = Some sess -> session_ok st sess) ->
    serve st sessions reqs = (st', sessions', replies) ->
    (forall client sess, sessions' !! client = Some sess -> session_ok st' sess)
    /\ Crash "KeyError" ∉ replies).
  { clear st reqs. induction reqs as [|[client req] rest IH];
      intros st sessions st' sessions' replies Hall Hserve.
    { injection Hserve as <- <- <-. split; [done|apply not_elem_of_nil]. }
    cbn [serve] in Hserve.
    set (sess := default ∅ (sessions !! client)) in *.
    assert (Hsess : session_ok st sess).
    { unfold sess. destruct (sessions !! client) as [s|] eqn:Hs; simpl.
      - by eapply Hall.
      - intros Hsome. by apply lookup_empty_is_Some in Hsome. }
    destruct (serve (out_state (handle st sess req))
                (<[client := out_session (handle st sess req)]> sessions) rest)
      as [[st1 sessions1] replies1] eqn:Hrest.
    injection Hserve as <- <- <-.
    assert (Hall' : forall c s,
              <[client := out_session (handle st sess req)]> sessions !! c = Some s ->
              session_ok (out_state (handle st sess req)) s).
    { intros c s. rewrite lookup_insert. case_decide as Hc.
      - intros [= <-]. by apply handle_session_ok.
      - intros Hs. eapply session_ok_grows; [apply handle_prefix|]. by eapply Hall. }
    destruct (IH _ _ _ _ _ Hall' Hrest) as [Hall1 Hno].
    split; [done|]. apply not_elem_of_cons. split; [|done].
    intros Heq. symmetry in Heq. by apply handle_no_key_error in Heq. }
  intros st' sessions' replies. apply Hgen. intros client sess.
  by rewrite lookup_empty.
Qed.

End Application.

(** ** Stand-ins for the libraries *)

Lemma plain_check_generated salt password :
  plain_check (plain_hash salt password) password = true.
Proof.
  unfold plain_check, plain_hash. apply bool_decide_eq_true_2.
  rewrite length_app. replace (length salt + length password - length password)
    with (length salt) by lia.
  apply drop_app_length.
Qed.

Definition plain_werkzeug : Werkzeug := {|
  generate_password_hash := plain_hash;
  check_password_hash := plain_check;
  check_generated := plain_check_generated;
  secure_filename := fun name => name
|}.

Lemma plain_decode_encode text : plain_decode (plain_encode text) = text.
Proof.
  unfold plain_decode, plain_encode. rewrite <- list_fmap_compose.
  induction text as [|c t IH]; [done|]. rewrite fmap_cons. simpl.
  by rewrite ascii_of_byte_of_ascii, IH.
Qed.

Lemma plain_read_written text :
  exists text', Ok (plain_decode (plain_encode text)) = Ok text'
                /\ nonspaces text' = nonspaces text.
Proof. exists text. by rewrite plain_decode_encode. Qed.

Definition plain_formats : Formats := {|
  fitz_pages := fun file => Ok [Ok (plain_decode file)];
  docx_paragraphs := fun file => Ok [plain_decode file];
  write_text := plain_encode;
  read_text := fun file => Ok (plain_decode file);
  read_text_ignore := plain_decode;
  read_written := plain_read_written
|}.

(** ** [splitext] *)









(** ** Accounts, uploads and questions *)

Section Accounts.
Context `{Sklearn} `{Numpy} `{Formats} `{Werkzeug}.

(** X12. Without the key [user_id] in the session, no request reads or
    writes the files of the upload folder, and the three protected views
    (index, upload, ask) answer with the redirection to [signin] and
    change nothing. *)
Theorem anonymous_requests (st : state) (sess : gmap string value) (req : request) :
  sess !! "user_id" = None ->
  uploads (out_state (handle st sess req)) = uploads st
  /\ (req = Index \/ (exists files, req = UploadFile files) \/ (exists data, req = Ask data) ->
      handle st sess req = Build_outcome st sess [] (Redirect "signin")).
Proof.
  intros Hnone.
  assert (Hguard : forall view,
            login_required st sess view = Build_outcome st sess [] (Redirect "signin")).
  { intros view. unfold login_required. rewrite bool_decide_eq_false_2; [done|].
    rewrite Hnone. by intros [? ?]. }
  split.
  - destruct req as [|m form salt|m form| | |files|data| |path]; simpl;
      rewrite ?Hguard; try done.
    + unfold signup. destruct m; [done|].
      case_bool_decide; [done|]. by destruct (insert_user _ _ _).
    + unfold signin. destruct m; [done|].
      destruct (select_user _ _); [|done]. by destruct (check_password_hash _ _).
  - intros [->|[[files ->]|[data ->]]]; simpl; apply Hguard.
Qed.

(** X13. Signing up and signing in agree: after a [signup] posted with a
    name and a password that are not blank, for a name that is not taken,
    a row for the stripped name is added; and in every later state of the
    table a [signin] posted with the same name and password, up to the
    white space around them, sets the session to that row and redirects
    to [index]. *)
Theorem signup_then_signin (st : state) (sess : gmap string value)
    (form : gmap string str) (salt : str) :
  form_field form "username" <> [] ->
  form_field form "password" <> [] ->
  select_user (users st) (form_field form "username") = None ->
  exists row,
    users (out_state (signup st sess POST form salt)) = users st ++ [row]
    /\ row_username row = form_field form "username"
    /\ out_response (signup st sess POST form salt) = Redirect "signin"
    /\ forall st2 sess2 form2,
         users st ++ [row] `prefix_of` users st2 ->
         form_field form2 "username" = form_field form "username" ->
         form_field form2 "password" = form_field form "password" ->
         out_response (signin st2 sess2 POST form2) = Redirect "index"
         /\ out_session (signin st2 sess2 POST form2) !! "user_id"
            = Some (VInt (row_id row))
         /\ out_session (signin st2 sess2 POST form2) !! "username"
            = Some (VStr (row_username row)).
Proof.
  intros Hu Hp Hfree. unfold signup.
  rewrite bool_decide_eq_false_2 by tauto.
  unfold insert_user. rewrite Hfree. eexists. simpl.
  split_and!; [done|done|done|].
  intros st2 sess2 form2 [k Hk] Hu2 Hp2. unfold signin.
  rewrite Hu2, Hp2, Hk, <- app_assoc, !select_user_app, Hfree. simpl.
  rewrite bool_decide_eq_true_2 by done. simpl.
  rewrite check_generated. simpl.
  by rewrite lookup_insert_eq, lookup_insert_ne, lookup_insert_eq.
Qed.

Lemma upload_key_differs (username name : str) :
  username ++ lit "_" ++ name <> username ++ lit ".txt".
Proof. intros Heq%app_inv_head. discriminate. Qed.







(** X16. An upload from which no text comes out (a blank text file, a PDF
    without text, a DOCX that cannot be read) is answered "Uploaded but no
    text extracted" and keeps the document of the user: the stored text
    and the answers to the questions are those of before the upload. *)
Theorem blank_upload_keeps_document (st : state) (sess : gmap string value)
    (files : gmap string upload) (v : value) :
  sess !! "username" = Some v ->
  out_response (upload_file st sess files)
    = Json "message" (lit "Uploaded but no text extracted") 200 ->
  load_extracted_text_for_user (out_state (upload_file st sess files))
    (format_value v)
  = load_extracted_text_for_user st (format_value v)
  /\ (forall data,
        out_response (ask (out_state (upload_file st sess files)) sess data)
        = out_response (ask st sess data)).
Proof.
  intros Hv. unfold upload_file. rewrite Hv.
  destruct (files !! "file") as [file|]; [|done].
  case_bool_decide as Hname; [done|].
  case_bool_decide as Hext; [done|].
  case_bool_decide as Hblank; [|done]. cbn [out_response out_state]. intros _.
  assert (Hload : load_extracted_text_for_user
            {| users := users st;
               uploads := <[format_value v ++ lit "_" ++ secure_filename (filename file)
                            := content file]> (uploads st) |} (format_value v)
          = load_extracted_text_for_user st (format_value v)).
  { unfold load_extracted_text_for_user. simpl.
    by rewrite lookup_insert_ne by apply upload_key_differs. }
  split; [done|]. intros data. unfold ask. rewrite Hv, Hload.
  case_bool_decide; [by destruct (ask_question _ _)|].
  destruct (load_extracted_text_for_user st (format_value v)); [|done].
  by destruct (ask_question _ _).
Qed.


End Accounts.

(** ** The application on sample requests *)

Example serve_sample :
  (@serve (scripted (Ok [1 # 2; 1 # 10])) insertion_numpy plain_formats
     plain_werkzeug empty_state ∅ sample_requests).2
  = [ Redirect "signin"; Redirect "index";
      Json "message" (lit "File uploaded and processed successfully") 200;
      Json "answer" (lit "The sky is blue.") 200;
      Redirect "signin"; Redirect "signin"; Redirect "signin" ].
Proof. vm_compute. reflexivity. Qed.

Lemma sessions_well_formed_witness :
  exists st' sessions' replies,
    @serve (scripted (Ok [1 # 2; 1 # 10])) insertion_numpy plain_formats
      plain_werkzeug empty_state ∅ sample_requests = (st', sessions', replies)
    /\ Crash "KeyError" ∉ replies.
Proof.
  destruct (@serve (scripted (Ok [1 # 2; 1 # 10])) insertion_numpy plain_formats
              plain_werkzeug empty_state ∅ sample_requests)
    as [[st' sessions'] replies] eqn:Hserve.
  exists st', sessions', replies. split; [reflexivity|].
  apply (@sessions_well_formed (scripted (Ok [1 # 2; 1 # 10])) insertion_numpy
           plain_formats plain_werkzeug empty_state sample_requests
           st' sessions' replies Hserve).
Defined.

Lemma anonymous_requests_witness :
  (∅ : gmap string value) !! "user_id" = None
  /\ @handle (scripted (Ok [1 # 2; 1 # 10])) insertion_numpy plain_formats
       plain_werkzeug empty_state ∅ (Ask sky_ask)
     = Build_outcome empty_state ∅ [] (Redirect "signin").
Proof.
  assert (Hnone : (∅ : gmap string value) !! "user_id" = None) by reflexivity.
  split; [exact Hnone|].
  destruct (@anonymous_requests (scripted (Ok [1 # 2; 1 # 10])) insertion_numpy
              plain_formats plain_werkzeug empty_state ∅ (Ask sky_ask) Hnone)
    as [_ Hredirect].
  apply Hredirect. right. right. by exists sky_ask.
Defined.

Lemma signup_then_signin_witness :
  form_field alice_form "username" <> []
  /\ form_field alice_form "password" <> []
  /\ select_user (users empty_state) (form_field alice_form "username") = None
  /\ exists row,
       users (out_state (@signup plain_werkzeug empty_state ∅ POST alice_form
                           (lit "salt")))
       = users empty_state ++ [row]
       /\ row_username row = lit "alice".
Proof.
  assert (Hu : form_field alice_form "username" <> []) by (vm_compute; discriminate).
  assert (Hp : form_field alice_form "password" <> []) by (vm_compute; discriminate).
  assert (Hfree : select_user (users empty_state) (form_field alice_form "username")
                  = None) by reflexivity.
  split; [exact Hu|]. split; [exact Hp|]. split; [exact Hfree|].
  destruct (@signup_then_signin plain_werkzeug empty_state ∅ alice_form
              (lit "salt") Hu Hp Hfree) as (row & Hrows & Hname & _).
  exists row. split; [exact Hrows|]. rewrite Hname. reflexivity.
Defined.



Lemma blank_upload_keeps_document_witness :
  alice_session !! "username" = Some (VStr (lit "alice"))
  /\ out_response (@upload_file plain_formats plain_werkzeug empty_state
                     alice_session blank_upload)
     = Json "message" (lit "Uploaded but no text extracted") 200
  /\ @load_extracted_text_for_user plain_formats
       (out_state (@upload_file plain_formats plain_werkzeug empty_state
                     alice_session blank_upload)) (lit "alice")
     = @load_extracted_text_for_user plain_formats empty_state (lit "alice").
Proof.
  assert (Hv : alice_session !! "username" = Some (VStr (lit "alice")))
    by reflexivity.
  assert (Hblank : out_response (@upload_file plain_formats plain_werkzeug
                     empty_state alice_session blank_upload)
     = Json "message" (lit "Uploaded but no text extracted") 200)
    by (vm_compute; reflexivity).
  split; [exact Hv|]. split; [exact Hblank|].
  apply (@blank_upload_keeps_document (scripted (Ok [1 # 2; 1 # 10]))
           insertion_numpy plain_formats plain_werkzeug empty_state alice_session
           blank_upload (VStr (lit "alice")) Hv Hblank).
Defined.


